(** * Comparison-operand capture (frida_mode/src/cmplog/cmplog_x64.c) and
      data-flow trace lookup (custom_mutators/libfuzzer/FuzzerDataFlowTrace.h)

    A shallow embedding of the x86-64 capture engine and of the inline
    members of [BlockCoverage] and [DataFlowTrace], followed by the
    properties of the specification that are settled on it.

    Machine integers are integers of [Z] with the wrap-around written out,
    the shared comparison map is a pair of arrays indexed by the
    code-location key, and [FFATAL] is the outcome [Fatal]. *)

From Stdlib Require Import ZArith Lia.
From stdpp Require Import base tactics decidable option list list_numbers functions gmap strings.

#[local] Open Scope Z_scope.

(** ** Machine integers *)

(** The value kept by an unsigned object of [bits] bits. *)
Definition wrap (bits x : Z) : Z := x `mod` 2 ^ bits.

(** glib's largest [gulong]; [gulong] and [gsize] have 64 bits on x86-64. *)
Definition G_MAXULONG : Z := 2 ^ 64 - 1.

(** ** Outcome of a function that may end in [FFATAL] *)

Inductive outcome (A : Type) : Type :=
| Done (a : A)
| Fatal.

Arguments Done {A} a.
Arguments Fatal {A}.

#[global] Instance outcome_ret : MRet outcome := @Done.

#[global] Instance outcome_bind : MBind outcome :=
  λ A B f c, match c with Done a => f a | Fatal => Fatal end.

(** ** Capstone's operand and instruction descriptions *)

Inductive x86_op_type : Set :=
| X86_OP_INVALID
| X86_OP_REG
| X86_OP_IMM
| X86_OP_MEM.

Inductive x86_reg : Set :=
| X86_REG_INVALID
| X86_REG_RAX
| X86_REG_RCX
| X86_REG_RDX
| X86_REG_RBX
| X86_REG_RSP
| X86_REG_RBP
| X86_REG_RSI
| X86_REG_RDI
| X86_REG_RIP
| X86_REG_OTHER (id : Z).

Inductive x86_insn : Set :=
| X86_INS_CALL
| X86_INS_CMP
| X86_INS_SUB
| X86_INS_SCASB
| X86_INS_SCASD
| X86_INS_SCASQ
| X86_INS_SCASW
| X86_INS_CMPSB
| X86_INS_CMPSD
| X86_INS_CMPSQ
| X86_INS_CMPSS
| X86_INS_CMPSW
| X86_INS_OTHER (id : Z).

#[global] Instance x86_op_type_eq_dec : EqDecision x86_op_type.
Proof. solve_decision. Defined.

#[global] Instance x86_reg_eq_dec : EqDecision x86_reg.
Proof. solve_decision. Defined.

#[global] Instance x86_insn_eq_dec : EqDecision x86_insn.
Proof. solve_decision. Defined.

Record x86_op_mem : Set := {
  mem_segment : x86_reg;
  mem_base : x86_reg;
  mem_index : x86_reg;
  mem_scale : Z;   (* int *)
  mem_disp : Z     (* int64_t *)
}.

(** [cs_x86_op]: the members [reg], [imm] and [mem] share storage in C; the
    code reads a member only under the matching [type], so each is a field
    of its own here. *)
Record cs_x86_op : Set := {
  op_type : x86_op_type;
  op_size : Z;     (* uint8_t *)
  op_reg : x86_reg;
  op_imm : Z;      (* int64_t *)
  op_mem : x86_op_mem
}.

Record cs_x86 : Set := {
  op_count : Z;
  operands : list cs_x86_op
}.

(** [cs_insn], with [instr->detail->x86] as the field [insn_x86]. *)
Record cs_insn : Set := {
  insn_id : x86_insn;
  insn_x86 : cs_x86
}.

Definition no_mem : x86_op_mem :=
  {| mem_segment := X86_REG_INVALID; mem_base := X86_REG_INVALID;
     mem_index := X86_REG_INVALID; mem_scale := 0; mem_disp := 0 |}.

(** An unused slot of [x86.operands], which Capstone leaves zeroed. *)
Definition no_operand : cs_x86_op :=
  {| op_type := X86_OP_INVALID; op_size := 0; op_reg := X86_REG_INVALID;
     op_imm := 0; op_mem := no_mem |}.

(** ** The capture engine's own descriptors (lines 13-29) *)

Record cmplog_ctx_t : Set := {
  ctx_type : x86_op_type;
  ctx_size : Z;    (* uint8_t *)
  ctx_mem : x86_op_mem;
  ctx_reg : x86_reg;
  ctx_imm : Z      (* int64_t *)
}.

Record cmplog_pair_ctx_t : Set := {
  operand1 : cmplog_ctx_t;
  operand2 : cmplog_ctx_t
}.

(** ** Live state of the target *)

(** Modelled from the spec: the live CPU register state. [GumCpuContext] and
    [ctx_read_reg] (ctx.h) are not among the sources; a context gives every
    register a value and [ctx_read_reg] returns it as a [gsize]. *)
Definition GumCpuContext : Type := x86_reg → Z.

Definition ctx_read_reg (context : GumCpuContext) (reg : x86_reg) : Z :=
  wrap 64 (context reg).

(** The target's address space: the byte found at each address. *)
Definition Memory : Type := Z → Z.

(** The [n] bytes at [address], in address order: what [gum_memcpy] copies
    and what a load of [n] bytes sees. *)
Definition read_bytes (memory : Memory) (address n : Z) : list Z :=
  (λ i, wrap 8 (memory i)) <$> seqZ address n.

(** The unsigned integer that little-endian bytes stand for (x86-64). *)
Fixpoint le_combine (bytes : list Z) : Z :=
  match bytes with
  | [] => 0
  | b :: rest => b + 256 * le_combine rest
  end.

(** ** The comparison map (cmplog.h is not among the sources) *)

(** Modelled from the spec: the classification of a map entry,
    [type: {INS, RTN, NONE}], for the constants [CMP_TYPE_INS] and
    [CMP_TYPE_RTN] of cmplog.h. *)
Inductive cmp_type : Set :=
| CMP_TYPE_NONE
| CMP_TYPE_INS
| CMP_TYPE_RTN.

#[global] Instance cmp_type_eq_dec : EqDecision cmp_type.
Proof. solve_decision. Defined.

(** Modelled from the spec: the per-location header
    [{ type, shape: integer, hits: unsigned counter }], for
    [struct cmp_header] of cmplog.h. *)
Record cmp_header : Set := {
  hdr_hits : Z;
  hdr_shape : Z;
  hdr_type : cmp_type
}.

(** Modelled from the spec: an [INS] record, two unsigned integers of up to
    8 bytes each, for [struct cmp_operands] of cmplog.h. *)
Record cmp_operands : Set := {
  v0 : Z;
  v1 : Z
}.

(** Modelled from the spec: an [RTN] record, two buffers with explicit
    length fields, for [struct cmpfn_operands] of cmplog.h; [fn_v0] and
    [fn_v1] are the bytes copied into the buffers [v0] and [v1]. *)
Record cmpfn_operands : Set := {
  fn_v0 : list Z;
  fn_v0_len : Z;
  fn_v1 : list Z;
  fn_v1_len : Z
}.

(** Modelled from the spec: the ring of one location, [log[k]] of
    [struct cmp_map] of cmplog.h. It is one piece of storage, written either
    as an array of [cmp_operands] or, through the cast of lines 116-121, as
    an array of [cmpfn_operands]. What a record written through one type
    looks like through the other depends on the layout of both structs,
    which is not modelled: such a slot reads as [None]. *)
Inductive cmp_log : Type :=
| LogIns (ring : Z → option cmp_operands)
| LogRtn (ring : Z → option cmpfn_operands).

Definition ins_view (l : cmp_log) : Z → option cmp_operands :=
  match l with
  | LogIns ring => ring
  | LogRtn _ => λ _, None
  end.

Definition rtn_view (l : cmp_log) : Z → option cmpfn_operands :=
  match l with
  | LogRtn ring => ring
  | LogIns _ => λ _, None
  end.

(** Modelled from the spec: [struct cmp_map] of cmplog.h, an array of
    headers and, per location, a ring: [headers[k]] and [log[k]] for each
    key [k]. *)
Record cmp_map : Type := {
  headers : Z → cmp_header;
  log : Z → cmp_log
}.

(** The constants and field widths of cmplog.h, the code-location hash of
    instrument.h and the memory probe of frida_cmplog.h, none of which is
    among the sources, are parameters of the capture engine. *)
Class cmplog_env : Type := {
  (** capacity of the ring of an [INS] entry *)
  CMP_MAP_H : Z;
  (** capacity of the ring of an [RTN] entry *)
  CMP_MAP_RTN_H : Z;
  (** width in bits of the header's [hits] field *)
  HITS_BITS : Z;
  (** width in bits of the header's [shape] field *)
  SHAPE_BITS : Z;
  (** the code-location key of an instruction's address *)
  instrument_get_offset_hash : Z → Z;
  (** the memory probe: are the [size] bytes at [address] readable? *)
  cmplog_is_readable : Z → Z → bool
}.

Section capture.
Context `{Env : cmplog_env}.

(** ** Stores into the map *)

(** [__afl_cmp_map->headers[k].hits = v]: the field keeps [HITS_BITS] bits. *)
Definition store_hits (m : cmp_map) (k v : Z) : cmp_map :=
  let h := headers m k in
  {| headers := <[k := {| hdr_hits := wrap HITS_BITS v;
                          hdr_shape := hdr_shape h;
                          hdr_type := hdr_type h |}]> (headers m);
     log := log m |}.

(** [__afl_cmp_map->headers[k].shape = v]: the field keeps [SHAPE_BITS] bits. *)
Definition store_shape (m : cmp_map) (k v : Z) : cmp_map :=
  let h := headers m k in
  {| headers := <[k := {| hdr_hits := hdr_hits h;
                          hdr_shape := wrap SHAPE_BITS v;
                          hdr_type := hdr_type h |}]> (headers m);
     log := log m |}.

(** [__afl_cmp_map->headers[k].type = t]. *)
Definition store_type (m : cmp_map) (k : Z) (t : cmp_type) : cmp_map :=
  let h := headers m k in
  {| headers := <[k := {| hdr_hits := hdr_hits h;
                          hdr_shape := hdr_shape h;
                          hdr_type := t |}]> (headers m);
     log := log m |}.

(** Lines 182-183: [log[k][i].v0 = a; log[k][i].v1 = b]. *)
Definition store_operands (m : cmp_map) (k i a b : Z) : cmp_map :=
  {| headers := headers m;
     log := <[k := LogIns (<[i := Some {| v0 := a; v1 := b |}]>
                             (ins_view (log m k)))]> (log m) |}.

(** Lines 116-121: the two lengths and the two copies into
    [((struct cmpfn_operands * ) log[k])[i]]. *)
Definition store_fn_operands (m : cmp_map) (k i : Z) (r : cmpfn_operands)
  : cmp_map :=
  {| headers := headers m;
     log := <[k := LogRtn (<[i := Some r]> (rtn_view (log m k)))]> (log m) |}.

(** ** Operand evaluation (lines 31-81) *)

(** The result is [Done (Some v)] for [TRUE] with [*val = v] and
    [Done None] for [FALSE]. *)
Definition cmplog_read_mem (memory : Memory) (ctx : GumCpuContext)
    (size : Z) (mem : x86_op_mem) : outcome (option Z) :=
  let base := 0 in
  let index := 0 in
  let base :=
    if decide (mem_base mem ≠ X86_REG_INVALID)
    then ctx_read_reg ctx (mem_base mem) else base in
  let index :=
    if decide (mem_index mem ≠ X86_REG_INVALID)
    then ctx_read_reg ctx (mem_index mem) else index in
  let address :=
    wrap 64 (wrap 64 (base + wrap 64 (index * wrap 64 (mem_scale mem)))
             + wrap 64 (mem_disp mem)) in
  if negb (cmplog_is_readable address size) then Done None
  else match size with
       | 1 => Done (Some (le_combine (read_bytes memory address 1)))
       | 2 => Done (Some (le_combine (read_bytes memory address 2)))
       | 4 => Done (Some (le_combine (read_bytes memory address 4)))
       | 8 => Done (Some (le_combine (read_bytes memory address 8)))
       | _ => Fatal
       end.

Definition cmplog_get_operand_value (memory : Memory)
    (context : GumCpuContext) (ctx : cmplog_ctx_t) : outcome (option Z) :=
  match ctx_type ctx with
  | X86_OP_REG => Done (Some (ctx_read_reg context (ctx_reg ctx)))
  | X86_OP_IMM => Done (Some (wrap 64 (ctx_imm ctx)))
  | X86_OP_MEM => cmplog_read_mem memory context (ctx_size ctx) (ctx_mem ctx)
  | _ => Fatal
  end.

(** ** Call-site capture (lines 83-122) *)

Definition cmplog_call_callout (m : cmp_map) (memory : Memory)
    (context : GumCpuContext) : cmp_map :=
  let address := ctx_read_reg context X86_REG_RIP in
  let rdi := ctx_read_reg context X86_REG_RDI in
  let rsi := ctx_read_reg context X86_REG_RSI in
  if (wrap 64 (G_MAXULONG - rdi) <? 31) || (wrap 64 (G_MAXULONG - rsi) <? 31)
  then m
  else if negb (cmplog_is_readable rdi 31) || negb (cmplog_is_readable rsi 31)
  then m
  else
    let ptr1 := rdi in
    let ptr2 := rsi in
    let k := instrument_get_offset_hash address in
    let m :=
      if decide (hdr_type (headers m k) ≠ CMP_TYPE_RTN)
      then store_hits (store_type m k CMP_TYPE_RTN) k 0
      else m in
    let hits := 0 in
    let '(m, hits) :=
      if decide (hdr_hits (headers m k) = 0)
      then (store_shape m k 30, hits)
      else (m, wrap 32 (hdr_hits (headers m k))) in
    let m := store_hits m k (wrap 32 (hits + 1)) in
    let hits := Z.land hits (CMP_MAP_RTN_H - 1) in
    store_fn_operands m k hits
      {| fn_v0 := read_bytes memory ptr1 31; fn_v0_len := 31;
         fn_v1 := read_bytes memory ptr2 31; fn_v1_len := 31 |}.

(** ** Comparison capture (lines 161-195) *)

Definition cmplog_handle_cmp_sub (m : cmp_map) (context : GumCpuContext)
    (operand1 operand2 : Z) (size : Z) : cmp_map :=
  let address := ctx_read_reg context X86_REG_RIP in
  let k := instrument_get_offset_hash address in
  let m :=
    if decide (hdr_type (headers m k) ≠ CMP_TYPE_INS)
    then store_hits m k 0
    else m in
  let hits := 0 in
  let '(m, hits) :=
    if decide (hdr_hits (headers m k) = 0)
    then (store_shape (store_type m k CMP_TYPE_INS) k (size - 1), hits)
    else (m, wrap 32 (hdr_hits (headers m k))) in
  let m := store_hits m k (wrap 32 (hits + 1)) in
  let hits := Z.land hits (CMP_MAP_H - 1) in
  store_operands m k hits operand1 operand2.

Definition cmplog_cmp_sub_callout (m : cmp_map) (memory : Memory)
    (context : GumCpuContext) (user_data : cmplog_pair_ctx_t)
  : outcome cmp_map :=
  let ctx := user_data in
  r1 ← cmplog_get_operand_value memory context (operand1 ctx);
  match r1 with
  | None => Done m
  | Some a =>
      r2 ← cmplog_get_operand_value memory context (operand2 ctx);
      match r2 with
      | None => Done m
      | Some b =>
          Done (cmplog_handle_cmp_sub m context a b (ctx_size (operand1 ctx)))
      end
  end.

(** ** Callouts and their execution *)

(** A callout attached by [gum_stalker_iterator_put_callout]: the handler
    and its [user_data]. *)
Inductive callout : Set :=
| Callout_call
| Callout_cmp_sub (user_data : cmplog_pair_ctx_t).

(** Modelled from the spec: the host (frida-gum's stalker, not part of the
    sources) invokes an attached handler with the live CPU state each time
    the instruction it was attached to runs. *)
Definition run_callout (m : cmp_map) (memory : Memory)
    (context : GumCpuContext) (c : callout) : outcome cmp_map :=
  match c with
  | Callout_call => Done (cmplog_call_callout m memory context)
  | Callout_cmp_sub user_data =>
      cmplog_cmp_sub_callout m memory context user_data
  end.

(** One capture event: a callout with the state it is invoked in. *)
Record capture_event : Type := {
  ev_memory : Memory;
  ev_context : GumCpuContext;
  ev_callout : callout
}.

Definition run_event (m : cmp_map) (e : capture_event) : outcome cmp_map :=
  run_callout m (ev_memory e) (ev_context e) (ev_callout e).

Fixpoint run_events (m : cmp_map) (evs : list capture_event)
  : outcome cmp_map :=
  match evs with
  | [] => Done m
  | e :: rest => m' ← run_event m e; run_events m' rest
  end.

(** The key an event is filed under. *)
Definition event_key (e : capture_event) : Z :=
  instrument_get_offset_hash (ctx_read_reg (ev_context e) X86_REG_RIP).

End capture.

(** ** The instrumentation selector (lines 124-159 and 197-252) *)

Definition GumStalkerIterator : Type := list callout.

Definition gum_stalker_iterator_put_callout (iterator : GumStalkerIterator)
    (c : callout) : GumStalkerIterator :=
  iterator ++ [c].

Definition cmplog_instrument_put_operand (operand : cs_x86_op)
  : outcome cmplog_ctx_t :=
  match op_type operand with
  | X86_OP_REG =>
      Done {| ctx_type := op_type operand; ctx_size := op_size operand;
              ctx_mem := no_mem; ctx_reg := op_reg operand; ctx_imm := 0 |}
  | X86_OP_IMM =>
      Done {| ctx_type := op_type operand; ctx_size := op_size operand;
              ctx_mem := no_mem; ctx_reg := X86_REG_INVALID;
              ctx_imm := op_imm operand |}
  | X86_OP_MEM =>
      Done {| ctx_type := op_type operand; ctx_size := op_size operand;
              ctx_mem := op_mem operand; ctx_reg := X86_REG_INVALID;
              ctx_imm := 0 |}
  | _ => Fatal
  end.

Definition cmplog_instrument_call (instr : cs_insn)
    (iterator : GumStalkerIterator) : GumStalkerIterator :=
  let x86 := insn_x86 instr in
  if decide (insn_id instr ≠ X86_INS_CALL) then iterator
  else if decide (op_count x86 ≠ 1) then iterator
  else
    let operand := nth 0 (operands x86) no_operand in
    if decide (op_type operand = X86_OP_INVALID) then iterator
    else if decide (op_type operand = X86_OP_MEM
                    ∧ mem_segment (op_mem operand) ≠ X86_REG_INVALID)
    then iterator
    else gum_stalker_iterator_put_callout iterator Callout_call.

(** [g_malloc] does not return [NULL] for a struct; the check of line 201
    never fires. *)
Definition cmplog_instrument_cmp_sub_put_callout
    (iterator : GumStalkerIterator) (operand1 operand2 : cs_x86_op)
  : outcome GumStalkerIterator :=
  c1 ← cmplog_instrument_put_operand operand1;
  c2 ← cmplog_instrument_put_operand operand2;
  Done (gum_stalker_iterator_put_callout iterator
          (Callout_cmp_sub {| operand1 := c1; operand2 := c2 |})).

(** The instruction ids of the [switch] of lines 216-231. *)
Definition is_cmp_sub (id : x86_insn) : bool :=
  match id with
  | X86_INS_CMP | X86_INS_SUB
  | X86_INS_SCASB | X86_INS_SCASD | X86_INS_SCASQ | X86_INS_SCASW
  | X86_INS_CMPSB | X86_INS_CMPSD | X86_INS_CMPSQ | X86_INS_CMPSS
  | X86_INS_CMPSW => true
  | _ => false
  end.

Definition cmplog_instrument_cmp_sub (instr : cs_insn)
    (iterator : GumStalkerIterator) : outcome GumStalkerIterator :=
  let x86 := insn_x86 instr in
  if negb (is_cmp_sub (insn_id instr)) then Done iterator
  else if decide (op_count x86 ≠ 2) then Done iterator
  else
    let operand1 := nth 0 (operands x86) no_operand in
    let operand2 := nth 1 (operands x86) no_operand in
    if decide (op_type operand1 = X86_OP_INVALID) then Done iterator
    else if decide (op_type operand2 = X86_OP_INVALID) then Done iterator
    else if decide (op_size operand1 = 1) then Done iterator
    else cmplog_instrument_cmp_sub_put_callout iterator operand1 operand2.

(** [__afl_cmp_map] is [None] for the null pointer. *)
Definition cmplog_instrument (afl_cmp_map : option cmp_map)
    (instr : cs_insn) (iterator : GumStalkerIterator)
  : outcome GumStalkerIterator :=
  match afl_cmp_map with
  | None => Done iterator
  | Some _ =>
      let iterator := cmplog_instrument_call instr iterator in
      cmplog_instrument_cmp_sub instr iterator
  end.

(** The selector applied to the instructions of a block, in order. *)
Fixpoint cmplog_instrument_block (afl_cmp_map : option cmp_map)
    (instrs : list cs_insn) (iterator : GumStalkerIterator)
  : outcome GumStalkerIterator :=
  match instrs with
  | [] => Done iterator
  | instr :: rest =>
      iterator' ← cmplog_instrument afl_cmp_map instr iterator;
      cmplog_instrument_block afl_cmp_map rest iterator'
  end.

(** Modelled from the spec: running an instruction of the instrumented
    target invokes, in order, the callouts the selector attached to it (the
    host that does so, frida-gum's stalker, is not part of the sources). *)
Definition run_instrumented `{Env : cmplog_env} (afl_cmp_map : option cmp_map)
    (instr : cs_insn) (m : cmp_map) (memory : Memory)
    (context : GumCpuContext) : outcome cmp_map :=
  attached ← cmplog_instrument afl_cmp_map instr [];
  run_events m
    ((λ c, {| ev_memory := memory; ev_context := context;
              ev_callout := c |}) <$> attached).

(** ** FuzzerDataFlowTrace.h: inline members of [BlockCoverage] *)

Definition CoverageVector : Type := list Z.   (* Vector<uint32_t> *)

Record BlockCoverage : Type := {
  (** function id => vector of counters *)
  Functions : gmap Z CoverageVector;
  (** functions that have a DFT entry *)
  FunctionsWithDFT : gset Z
}.

Definition NumCoveredFunctions (this : BlockCoverage) : Z :=
  Z.of_nat (size (Functions this)).

Definition GetCounter (this : BlockCoverage) (FunctionId BasicBlockId : Z)
  : Z :=
  match Functions this !! FunctionId with
  | None => 0
  | Some Counters =>
      if decide (BasicBlockId < Z.of_nat (length Counters))
      then nth (Z.to_nat BasicBlockId) Counters 0
      else 0
  end.

Definition GetNumberOfBlocks (this : BlockCoverage) (FunctionId : Z) : Z :=
  match Functions this !! FunctionId with
  | None => 0
  | Some Counters => wrap 32 (Z.of_nat (length Counters))
  end.

(** Lines 86-91: the loop [for (auto Cnt : Counters) if (Cnt) Res++]. *)
Definition NumberOfCoveredBlocks (Counters : CoverageVector) : Z :=
  foldl (λ Res Cnt, if decide (Cnt ≠ 0) then wrap 32 (Res + 1) else Res)
        0 Counters.

(** Lines 68-76: the public member has the counting loop of its own. *)
Definition GetNumberOfCoveredBlocks (this : BlockCoverage) (FunctionId : Z)
  : Z :=
  match Functions this !! FunctionId with
  | None => 0
  | Some Counters =>
      foldl (λ Result Cnt,
               if decide (Cnt ≠ 0) then wrap 32 (Result + 1) else Result)
            0 Counters
  end.

Definition NumberOfUncoveredBlocks (Counters : CoverageVector) : Z :=
  wrap 32 (Z.of_nat (length Counters) - NumberOfCoveredBlocks Counters).

(** Lines 97-104; a failed [assert] is [Fatal]. *)
Definition SmallestNonZeroCounter (Counters : CoverageVector) : outcome Z :=
  match Counters with
  | [] => Fatal
  | c0 :: _ =>
      let Res :=
        foldl (λ Res Cnt, if decide (Cnt ≠ 0) then Z.min Res Cnt else Res)
              c0 Counters in
      if decide (Res ≠ 0) then Done Res else Fatal
  end.

Definition BlockCoverage_clear (this : BlockCoverage) : BlockCoverage :=
  {| Functions := ∅; FunctionsWithDFT := FunctionsWithDFT this |}.

(** ** FuzzerDataFlowTrace.h: inline members of [DataFlowTrace] *)

Record DataFlowTrace : Type := {
  (** input's sha1 => DFT for the focus function *)
  Traces : gmap string (list Byte.byte);
  Coverage : BlockCoverage;
  CorporaHashes : gset string
}.

Definition Clear (this : DataFlowTrace) : DataFlowTrace :=
  {| Traces := ∅; Coverage := Coverage this;
     CorporaHashes := CorporaHashes this |}.

(** [Get] is a [const] member: it returns the address of the stored vector,
    or [nullptr], here [None]. *)
Definition Get (this : DataFlowTrace) (InputSha1 : string)
  : option (list Byte.byte) :=
  match Traces this !! InputSha1 with
  | Some trace => Some trace
  | None => None
  end.

(** A call of a member function in state-passing form: the object after the
    call and the value returned. A [const] member hands the object back. *)
Definition call_Get (this : DataFlowTrace) (InputSha1 : string)
  : DataFlowTrace * option (list Byte.byte) :=
  (this, Get this InputSha1).

(** A sequence of [Get] calls on one object, with the values returned. *)
Fixpoint call_Gets (this : DataFlowTrace) (keys : list string)
  : DataFlowTrace * list (option (list Byte.byte)) :=
  match keys with
  | [] => (this, [])
  | key :: rest =>
      let '(this1, r) := call_Get this key in
      let '(this2, rs) := call_Gets this1 rest in
      (this2, r :: rs)
  end.

(** Modelled from the spec: step 3 of [Init], which is not among the
    sources, stores the parsed row keyed by the input's fingerprint. *)
Definition load_trace (this : DataFlowTrace) (fingerprint : string)
    (row : list Byte.byte) : DataFlowTrace :=
  {| Traces := <[fingerprint := row]> (Traces this);
     Coverage := Coverage this; CorporaHashes := CorporaHashes this |}.

Definition load_traces (this : DataFlowTrace)
    (rows : list (string * list Byte.byte)) : DataFlowTrace :=
  foldl (λ t row, load_trace t row.1 row.2) this rows.

(** ** Vocabulary of the properties *)

(** The address the spec gives a memory operand:
    [base_register_value + index_register_value * scale + displacement],
    each register term zero when the register is absent, as a [gsize]. *)
Definition reg_or_zero (context : GumCpuContext) (reg : x86_reg) : Z :=
  if decide (reg = X86_REG_INVALID) then 0 else ctx_read_reg context reg.

Definition effective_address (context : GumCpuContext) (mem : x86_op_mem)
  : Z :=
  (reg_or_zero context (mem_base mem)
   + reg_or_zero context (mem_index mem) * mem_scale mem
   + mem_disp mem) `mod` 2 ^ 64.

(** The operand widths [cmplog_read_mem] has a case for. *)
Definition supported_size (size : Z) : bool :=
  bool_decide (size = 1 ∨ size = 2 ∨ size = 4 ∨ size = 8).

(** A record of either ring. *)
Inductive log_record : Type :=
| Rec_ins (r : cmp_operands)
| Rec_rtn (r : cmpfn_operands).

Definition record_type (r : log_record) : cmp_type :=
  match r with
  | Rec_ins _ => CMP_TYPE_INS
  | Rec_rtn _ => CMP_TYPE_RTN
  end.

(** Slot [i] of a ring read as a ring of type [t]. *)
Definition log_view (l : cmp_log) (t : cmp_type) (i : Z) : option log_record :=
  match t with
  | CMP_TYPE_INS => Rec_ins <$> ins_view l i
  | CMP_TYPE_RTN => Rec_rtn <$> rtn_view l i
  | CMP_TYPE_NONE => None
  end.

(** The capture of type [t] re-classifies the entry: the stored type
    differs, or no hit is counted. *)
Definition reclassified (t : cmp_type) (h : cmp_header) : bool :=
  bool_decide (hdr_type h ≠ t ∨ hdr_hits h = 0).

(** The count a capture of type [t] takes up from: 0 for an entry of
    another type, else the stored [hits] as read into the [u32]. *)
Definition start_hits (t : cmp_type) (h : cmp_header) : Z :=
  if decide (hdr_type h = t) then wrap 32 (hdr_hits h) else 0.

(** What a ring of [H] slots holds once the records [xs] are written one
    after the other from position [p] on, each one slot further, modulo [H]. *)
Fixpoint ring_fill {A : Type} (H p : Z) (ring : Z → A) (xs : list A) : Z → A :=
  match xs with
  | [] => ring
  | x :: rest => ring_fill H ((p + 1) `mod` H) (<[p := x]> ring) rest
  end.

(** The [H] slots of a ring read in order from position [p], round the end:
    with [p] the slot written next, oldest record first. *)
Definition ring_readout {A : Type} (H p : Z) (ring : Z → A) : list A :=
  (λ j, ring ((p + j) `mod` H)) <$> seqZ 0 H.

Section vocabulary.
Context `{Env : cmplog_env}.

Definition ring_capacity (t : cmp_type) : Z :=
  match t with
  | CMP_TYPE_RTN => CMP_MAP_RTN_H
  | _ => CMP_MAP_H
  end.

(** A register holds an address from which 31 bytes can be taken without
    passing the top of the address space (the test of line 90). *)
Definition below_top (address : Z) : bool :=
  negb (wrap 64 (G_MAXULONG - address) <? 31).

(** The record an event captures, if it captures one: the operand pair of
    a comparison whose operands both evaluate, the two 31-byte snapshots of
    a call whose pointers both pass the tests of lines 90 and 92. *)
Definition captured (e : capture_event) : option log_record :=
  match ev_callout e with
  | Callout_cmp_sub ud =>
      match cmplog_get_operand_value (ev_memory e) (ev_context e) (operand1 ud),
            cmplog_get_operand_value (ev_memory e) (ev_context e) (operand2 ud)
      with
      | Done (Some a), Done (Some b) => Some (Rec_ins {| v0 := a; v1 := b |})
      | _, _ => None
      end
  | Callout_call =>
      let rdi := ctx_read_reg (ev_context e) X86_REG_RDI in
      let rsi := ctx_read_reg (ev_context e) X86_REG_RSI in
      if below_top rdi && below_top rsi
         && cmplog_is_readable rdi 31 && cmplog_is_readable rsi 31
      then Some (Rec_rtn {| fn_v0 := read_bytes (ev_memory e) rdi 31;
                            fn_v0_len := 31;
                            fn_v1 := read_bytes (ev_memory e) rsi 31;
                            fn_v1_len := 31 |})
      else None
  end.

(** The operand width a comparison event carries ([ctx->operand1.size]). *)
Definition event_size (e : capture_event) : Z :=
  match ev_callout e with
  | Callout_cmp_sub ud => ctx_size (operand1 ud)
  | Callout_call => 0
  end.

(** The shape a capture records when it re-classifies the entry. *)
Definition event_shape (e : capture_event) : Z :=
  match ev_callout e with
  | Callout_cmp_sub ud => ctx_size (operand1 ud) - 1
  | Callout_call => 30
  end.

(** An event whose capture is given up: an operand evaluates to [FALSE],
    the first one or, after the first evaluated, the second; or the probe
    finds fewer than 31 readable bytes at one of the two pointers of a
    call. *)
Definition gives_up (e : capture_event) : Prop :=
  match ev_callout e with
  | Callout_cmp_sub ud =>
      cmplog_get_operand_value (ev_memory e) (ev_context e) (operand1 ud)
      = Done None
      ∨ (∃ a, cmplog_get_operand_value (ev_memory e) (ev_context e)
                (operand1 ud) = Done (Some a))
        ∧ cmplog_get_operand_value (ev_memory e) (ev_context e) (operand2 ud)
          = Done None
  | Callout_call =>
      cmplog_is_readable (ctx_read_reg (ev_context e) X86_REG_RDI) 31 = false
      ∨ cmplog_is_readable (ctx_read_reg (ev_context e) X86_REG_RSI) 31 = false
  end.

(** An event at key [k] that captures a record of type [t]. *)
Definition captures_at (k : Z) (t : cmp_type) (e : capture_event) : Prop :=
  event_key e = k ∧ ∃ r, captured e = Some r ∧ record_type r = t.

(** What the engine needs of cmplog.h: both capacities are powers of two
    that the hit counter can count up to, the counter is no wider than the
    [u32] it is read into, and the shape field holds the value 30. *)
Record env_ok : Prop := {
  CMP_MAP_H_pow2 : ∃ n, 0 ≤ n ≤ HITS_BITS ∧ CMP_MAP_H = 2 ^ n;
  CMP_MAP_RTN_H_pow2 : ∃ n, 0 ≤ n ≤ HITS_BITS ∧ CMP_MAP_RTN_H = 2 ^ n;
  HITS_BITS_range : 0 < HITS_BITS ≤ 32;
  SHAPE_BITS_range : 5 ≤ SHAPE_BITS
}.

(** A header whose [hits] is a value of its field. *)
Definition hdr_ok (h : cmp_header) : Prop :=
  0 ≤ hdr_hits h < 2 ^ HITS_BITS.

End vocabulary.

(** ** Sample data *)

(** Rings of 32 and 8 records, a hit counter as wide as the [u32] it is
    read into, a 5-bit shape, keys from the low 16 bits of the address, and
    the addresses from 4096 up to 2^47 readable. *)
Definition sample_env : cmplog_env :=
  {| CMP_MAP_H := 32; CMP_MAP_RTN_H := 8; HITS_BITS := 32; SHAPE_BITS := 5;
     instrument_get_offset_hash := λ address, Z.land address 65535;
     cmplog_is_readable :=
       λ address size, (4096 <=? address) && (address + size <=? 2 ^ 47) |}.

(** The same, with a probe that lets every address through. *)
Definition open_env : cmplog_env :=
  {| CMP_MAP_H := 32; CMP_MAP_RTN_H := 8; HITS_BITS := 32; SHAPE_BITS := 5;
     instrument_get_offset_hash := λ address, Z.land address 65535;
     cmplog_is_readable := λ _ _, true |}.

(** The map as the fuzzer hands it over: all zero. *)
Definition zero_map : cmp_map :=
  {| headers := λ _, {| hdr_hits := 0; hdr_shape := 0;
                        hdr_type := CMP_TYPE_NONE |};
     log := λ _, LogIns (λ _, Some {| v0 := 0; v1 := 0 |}) |}.

Definition sample_context (rip rax rdi rsi : Z) : GumCpuContext :=
  λ reg, match reg with
         | X86_REG_RIP => rip
         | X86_REG_RAX => rax
         | X86_REG_RDI => rdi
         | X86_REG_RSI => rsi
         | _ => 0
         end.

(** Memory whose byte at each address is the low byte of the address. *)
Definition sample_memory : Memory := λ address, address.

Definition reg_operand (reg : x86_reg) (size : Z) : cmplog_ctx_t :=
  {| ctx_type := X86_OP_REG; ctx_size := size; ctx_mem := no_mem;
     ctx_reg := reg; ctx_imm := 0 |}.

Definition imm_operand (imm size : Z) : cmplog_ctx_t :=
  {| ctx_type := X86_OP_IMM; ctx_size := size; ctx_mem := no_mem;
     ctx_reg := X86_REG_INVALID; ctx_imm := imm |}.

Definition mem_operand (mem : x86_op_mem) (size : Z) : cmplog_ctx_t :=
  {| ctx_type := X86_OP_MEM; ctx_size := size; ctx_mem := mem;
     ctx_reg := X86_REG_INVALID; ctx_imm := 0 |}.

(** [cmp eax, 5] at 0x401000 and [cmp rax, 5] at 0x411000: two comparisons of
    different widths whose addresses agree in the low 16 bits. *)
Definition cmp32_event : capture_event :=
  {| ev_memory := sample_memory;
     ev_context := sample_context 0x401000 7 0 0;
     ev_callout := Callout_cmp_sub {| operand1 := reg_operand X86_REG_RAX 4;
                                      operand2 := imm_operand 5 4 |} |}.

Definition cmp64_event : capture_event :=
  {| ev_memory := sample_memory;
     ev_context := sample_context 0x411000 7 0 0;
     ev_callout := Callout_cmp_sub {| operand1 := reg_operand X86_REG_RAX 8;
                                      operand2 := imm_operand 5 8 |} |}.

(** A call at 0x421000, the same key again, with [rdi] and [rsi] pointing
    into readable memory. *)
Definition call_event : capture_event :=
  {| ev_memory := sample_memory;
     ev_context := sample_context 0x421000 0 0x5000 0x6000;
     ev_callout := Callout_call |}.

(** A memory operand with only a displacement. *)
Definition absolute (disp : Z) : x86_op_mem :=
  {| mem_segment := X86_REG_INVALID; mem_base := X86_REG_INVALID;
     mem_index := X86_REG_INVALID; mem_scale := 1; mem_disp := disp |}.

(** Comparisons with a memory operand at address 16, which the sample probe
    rejects: as first operand, and as second operand after a register. *)
Definition cmp_first_unreadable : capture_event :=
  {| ev_memory := sample_memory;
     ev_context := sample_context 0x401000 7 0 0;
     ev_callout := Callout_cmp_sub {| operand1 := mem_operand (absolute 16) 4;
                                      operand2 := imm_operand 5 4 |} |}.

Definition cmp_second_unreadable : capture_event :=
  {| ev_memory := sample_memory;
     ev_context := sample_context 0x401000 7 0 0;
     ev_callout := Callout_cmp_sub {| operand1 := reg_operand X86_REG_RAX 4;
                                      operand2 := mem_operand (absolute 16) 4 |} |}.

(** Calls whose [rsi] points at address 16, and whose [rdi] is 16 bytes
    below the top of the address space. *)
Definition call_unreadable : capture_event :=
  {| ev_memory := sample_memory;
     ev_context := sample_context 0x421000 0 0x5000 16;
     ev_callout := Callout_call |}.

Definition call_near_top : capture_event :=
  {| ev_memory := sample_memory;
     ev_context := sample_context 0x421000 0 (2 ^ 64 - 16) 0x6000;
     ev_callout := Callout_call |}.

(** [cmp al, 5]: both operands one byte wide. *)
Definition cmp_al_5 : cs_insn :=
  {| insn_id := X86_INS_CMP;
     insn_x86 :=
       {| op_count := 2;
          operands :=
            [ {| op_type := X86_OP_REG; op_size := 1; op_reg := X86_REG_RAX;
                 op_imm := 0; op_mem := no_mem |};
              {| op_type := X86_OP_IMM; op_size := 1;
                 op_reg := X86_REG_INVALID; op_imm := 5;
                 op_mem := no_mem |} ] |} |}.

(** The zero map with the entry of key 4096 typed [INS] and its counter at
    the largest value of 32 bits. *)
Definition full_counter_map : cmp_map :=
  {| headers := <[4096 := {| hdr_hits := 2 ^ 32 - 1; hdr_shape := 3;
                             hdr_type := CMP_TYPE_INS |}]> (headers zero_map);
     log := log zero_map |}.

(** ** Vocabulary of the further properties *)

(** The first two operands of an instruction, as the selector takes them. *)
Definition first_operand (instr : cs_insn) : cs_x86_op :=
  nth 0 (operands (insn_x86 instr)) no_operand.

Definition second_operand (instr : cs_insn) : cs_x86_op :=
  nth 1 (operands (insn_x86 instr)) no_operand.

(** A call the selector captures: exactly one operand, of a valid type, and
    no memory operand with a segment register. *)
Definition call_selected (instr : cs_insn) : bool :=
  bool_decide (insn_id instr = X86_INS_CALL
               ∧ op_count (insn_x86 instr) = 1
               ∧ op_type (first_operand instr) ≠ X86_OP_INVALID
               ∧ ¬ (op_type (first_operand instr) = X86_OP_MEM
                    ∧ mem_segment (op_mem (first_operand instr))
                      ≠ X86_REG_INVALID)).

(** A comparison the selector captures: an id of the family, exactly two
    operands, both of a valid type, the first not one byte wide. *)
Definition cmp_sub_selected (instr : cs_insn) : bool :=
  is_cmp_sub (insn_id instr)
  && bool_decide (op_count (insn_x86 instr) = 2
                  ∧ op_type (first_operand instr) ≠ X86_OP_INVALID
                  ∧ op_type (second_operand instr) ≠ X86_OP_INVALID
                  ∧ op_size (first_operand instr) ≠ 1).

Section further_vocabulary.
Context `{Env : cmplog_env}.

(** The value of an operand of the instruction itself, as Capstone
    describes it, in the state the instruction runs in. *)
Definition cs_operand_value (memory : Memory) (context : GumCpuContext)
    (operand : cs_x86_op) : outcome (option Z) :=
  match op_type operand with
  | X86_OP_REG => Done (Some (ctx_read_reg context (op_reg operand)))
  | X86_OP_IMM => Done (Some (op_imm operand `mod` 2 ^ 64))
  | X86_OP_MEM =>
      cmplog_read_mem memory context (op_size operand) (op_mem operand)
  | X86_OP_INVALID => Fatal
  end.

(** Every header holds values of its fields. *)
Definition fields_in_range (m : cmp_map) : Prop :=
  ∀ k, 0 ≤ hdr_hits (headers m k) < 2 ^ HITS_BITS
       ∧ 0 ≤ hdr_shape (headers m k) < 2 ^ SHAPE_BITS.

(** The ring of every typed entry was last written through the type of its
    header, and an entry typed [RTN] has shape 30. *)
Definition types_agree (m : cmp_map) : Prop :=
  ∀ k, match hdr_type (headers m k) with
       | CMP_TYPE_INS => ∃ ring, log m k = LogIns ring
       | CMP_TYPE_RTN =>
           hdr_shape (headers m k) = 30 ∧ ∃ ring, log m k = LogRtn ring
       | CMP_TYPE_NONE => True
       end.

(** The slots a reader takes from an entry - the first [hits] of them, or
    all when [hits] is past the capacity, read through the type of the
    header - all hold a record. *)
Definition slots_filled (m : cmp_map) : Prop :=
  ∀ k i,
    0 ≤ i < Z.min (hdr_hits (headers m k))
                  (ring_capacity (hdr_type (headers m k))) →
    is_Some (log_view (log m k) (hdr_type (headers m k)) i).

End further_vocabulary.

(** A comparison at 0x402000, a key of its own. *)
Definition cmp32_event_other_key : capture_event :=
  {| ev_memory := sample_memory;
     ev_context := sample_context 0x402000 9 0 0;
     ev_callout := Callout_cmp_sub {| operand1 := reg_operand X86_REG_RAX 4;
                                      operand2 := imm_operand 5 4 |} |}.

(** A comparison whose first operand is 16 bytes of readable memory. *)
Definition cmp_wide_mem : cs_insn :=
  {| insn_id := X86_INS_CMP;
     insn_x86 :=
       {| op_count := 2;
          operands :=
            [ {| op_type := X86_OP_MEM; op_size := 16;
                 op_reg := X86_REG_INVALID; op_imm := 0;
                 op_mem := absolute 0x5000 |};
              {| op_type := X86_OP_IMM; op_size := 16;
                 op_reg := X86_REG_INVALID; op_imm := 5;
                 op_mem := no_mem |} ] |} |}.

(** A coverage record: function 0 has three blocks, two of them covered;
    function 1 has two blocks, neither covered. *)
Definition sample_coverage : BlockCoverage :=
  {| Functions := {[ 0 := [3; 0; 1]; 1 := [0; 0] ]};
     FunctionsWithDFT := ∅ |}.

(** * Properties *)

(** ** Arithmetic of wrapped integers and masks *)

Lemma wrap_range bits x : 0 ≤ bits → 0 ≤ wrap bits x < 2 ^ bits.
Proof.
  intros Hb. unfold wrap. apply Z.mod_pos_bound. by apply Z.pow_pos_nonneg.
Qed.

Lemma wrap_small bits x : 0 ≤ x < 2 ^ bits → wrap bits x = x.
Proof. intros Hx. unfold wrap. by apply Z.mod_small. Qed.

Lemma wrap_0 bits : wrap bits 0 = 0.
Proof. unfold wrap. apply Zmod_0_l. Qed.

Lemma pow2_divide a b : 0 ≤ a ≤ b → (2 ^ a | 2 ^ b).
Proof.
  intros Hab. exists (2 ^ (b - a)).
  rewrite <- Z.pow_add_r by lia. f_equal. lia.
Qed.

Lemma wrap_wrap a b x : 0 ≤ a ≤ b → wrap a (wrap b x) = wrap a x.
Proof.
  intros Hab. unfold wrap.
  apply Z.mod_mod_divide. by apply pow2_divide.
Qed.

(** A mask of a power of two less one keeps the value modulo that power. *)
Lemma land_mask n x : 0 ≤ n → Z.land x (2 ^ n - 1) = x `mod` 2 ^ n.
Proof.
  intros Hn. rewrite <- Z.land_ones by done.
  f_equal. rewrite Z.ones_equiv. lia.
Qed.

Lemma mod_add_1 x H : 0 < H → (x `mod` H + 1) `mod` H = (x + 1) `mod` H.
Proof. intros HH. by rewrite Zplus_mod_idemp_l. Qed.

(** Two positions of a ring less than a full turn apart are different. *)
Lemma ring_slots_differ p d H :
  0 < d < H → (p + d) `mod` H ≠ p `mod` H.
Proof.
  intros Hd Heq.
  assert (Hdiv : (H | (p + d) - p)).
  { apply Z.mod_divide; [lia|].
    rewrite Zminus_mod, Heq, Z.sub_diag. by apply Zmod_0_l. }
  replace (p + d - p) with d in Hdiv by lia.
  destruct Hdiv as [q Hq].
  destruct (Z_le_gt_dec q 0); nia.
Qed.

(** ** Bytes read from memory *)

Lemma length_read_bytes memory address n :
  0 ≤ n → Z.of_nat (length (read_bytes memory address n)) = n.
Proof.
  intros Hn. unfold read_bytes. rewrite length_fmap, length_seqZ. lia.
Qed.

Lemma read_bytes_lookup memory address n (i : nat) :
  Z.of_nat i < n →
  read_bytes memory address n !! i
  = Some (wrap 8 (memory (address + Z.of_nat i))).
Proof.
  intros Hi. unfold read_bytes.
  by rewrite list_lookup_fmap, lookup_seqZ_lt.
Qed.

(** ** Stores *)

Section store_lemmas.
Context `{Env : cmplog_env}.

Lemma headers_store_hits m k v :
  headers (store_hits m k v) k
  = {| hdr_hits := wrap HITS_BITS v; hdr_shape := hdr_shape (headers m k);
       hdr_type := hdr_type (headers m k) |}.
Proof. unfold store_hits; simpl. by rewrite fn_lookup_insert. Qed.

Lemma headers_store_hits_ne m k v j :
  j ≠ k → headers (store_hits m k v) j = headers m j.
Proof. intros Hj. unfold store_hits; simpl. by rewrite fn_lookup_insert_ne. Qed.

Lemma headers_store_shape m k v :
  headers (store_shape m k v) k
  = {| hdr_hits := hdr_hits (headers m k); hdr_shape := wrap SHAPE_BITS v;
       hdr_type := hdr_type (headers m k) |}.
Proof. unfold store_shape; simpl. by rewrite fn_lookup_insert. Qed.

Lemma headers_store_shape_ne m k v j :
  j ≠ k → headers (store_shape m k v) j = headers m j.
Proof. intros Hj. unfold store_shape; simpl. by rewrite fn_lookup_insert_ne. Qed.

Lemma headers_store_type m k t :
  headers (store_type m k t) k
  = {| hdr_hits := hdr_hits (headers m k);
       hdr_shape := hdr_shape (headers m k); hdr_type := t |}.
Proof. unfold store_type; simpl. by rewrite fn_lookup_insert. Qed.

Lemma headers_store_type_ne m k t j :
  j ≠ k → headers (store_type m k t) j = headers m j.
Proof. intros Hj. unfold store_type; simpl. by rewrite fn_lookup_insert_ne. Qed.

Lemma log_store_hits m k v : log (store_hits m k v) = log m.
Proof. done. Qed.

Lemma log_store_shape m k v : log (store_shape m k v) = log m.
Proof. done. Qed.

Lemma log_store_type m k t : log (store_type m k t) = log m.
Proof. done. Qed.

Lemma headers_store_operands m k i a b :
  headers (store_operands m k i a b) = headers m.
Proof. done. Qed.

Lemma headers_store_fn_operands m k i r :
  headers (store_fn_operands m k i r) = headers m.
Proof. done. Qed.

Lemma log_store_operands m k i a b :
  log (store_operands m k i a b) k
  = LogIns (<[i := Some {| v0 := a; v1 := b |}]> (ins_view (log m k))).
Proof. unfold store_operands; simpl. by rewrite fn_lookup_insert. Qed.

Lemma log_store_operands_ne m k i a b j :
  j ≠ k → log (store_operands m k i a b) j = log m j.
Proof.
  intros Hj. unfold store_operands; simpl. by rewrite fn_lookup_insert_ne.
Qed.

Lemma log_store_fn_operands m k i r :
  log (store_fn_operands m k i r) k
  = LogRtn (<[i := Some r]> (rtn_view (log m k))).
Proof. unfold store_fn_operands; simpl. by rewrite fn_lookup_insert. Qed.

Lemma log_store_fn_operands_ne m k i r j :
  j ≠ k → log (store_fn_operands m k i r) j = log m j.
Proof.
  intros Hj. unfold store_fn_operands; simpl. by rewrite fn_lookup_insert_ne.
Qed.

End store_lemmas.

Create Rewrite HintDb stores.

#[local] Hint Rewrite @headers_store_hits @headers_store_shape
  @headers_store_type @log_store_hits @log_store_shape @log_store_type
  @headers_store_operands @headers_store_fn_operands @log_store_operands
  @log_store_fn_operands : stores.

#[local] Hint Rewrite @headers_store_hits_ne @headers_store_shape_ne
  @headers_store_type_ne @log_store_operands_ne @log_store_fn_operands_ne
  using done : stores.

(** ** One capture, step by step *)

Section capture_steps.
Context `{Env : cmplog_env}.

Lemma reclassified_start_hits t h :
  reclassified t h = true → start_hits t h = 0.
Proof.
  unfold reclassified, start_hits. intros Hr%bool_decide_eq_true.
  case_decide as Ht; [|done].
  destruct Hr as [Hr|Hr]; [done|]. rewrite Hr. apply wrap_0.
Qed.

(** The entry at the key after [cmplog_handle_cmp_sub]. *)
Lemma handle_cmp_sub_header m context a b size :
  let k := instrument_get_offset_hash (ctx_read_reg context X86_REG_RIP) in
  let h := headers m k in
  headers (cmplog_handle_cmp_sub m context a b size) k
  = {| hdr_hits := wrap HITS_BITS (wrap 32 (start_hits CMP_TYPE_INS h + 1));
       hdr_shape := if reclassified CMP_TYPE_INS h
                    then wrap SHAPE_BITS (size - 1) else hdr_shape h;
       hdr_type := CMP_TYPE_INS |}.
Proof.
  intros k h. unfold cmplog_handle_cmp_sub. fold k.
  unfold reclassified, start_hits. fold h.
  destruct (decide (hdr_type h ≠ CMP_TYPE_INS)) as [Ht|Ht].
  - rewrite (decide_True (P := hdr_hits _ = 0)).
    2:{ autorewrite with stores. apply wrap_0. }
    autorewrite with stores. simpl.
    rewrite bool_decide_eq_true_2 by (by left).
    by rewrite decide_False by done.
  - apply dec_stable in Ht.
    rewrite (decide_True (P := hdr_type h = _)) by done.
    destruct (decide (hdr_hits (headers m k) = 0)) as [H0|H0].
    + autorewrite with stores. simpl.
      rewrite bool_decide_eq_true_2 by (by right).
      fold h in H0. by rewrite H0, wrap_0.
    + autorewrite with stores. simpl.
      rewrite bool_decide_eq_false_2 by (fold h in H0; tauto).
      fold h. by rewrite Ht.
Qed.

Lemma handle_cmp_sub_log m context a b size :
  let k := instrument_get_offset_hash (ctx_read_reg context X86_REG_RIP) in
  let h := headers m k in
  log (cmplog_handle_cmp_sub m context a b size) k
  = LogIns (<[Z.land (start_hits CMP_TYPE_INS h) (CMP_MAP_H - 1)
              := Some {| v0 := a; v1 := b |}]> (ins_view (log m k))).
Proof.
  intros k h. unfold cmplog_handle_cmp_sub. fold k.
  unfold start_hits. fold h.
  destruct (decide (hdr_type h ≠ CMP_TYPE_INS)) as [Ht|Ht].
  - rewrite (decide_True (P := hdr_hits _ = 0)).
    2:{ autorewrite with stores. apply wrap_0. }
    autorewrite with stores.
    by rewrite decide_False by done.
  - apply dec_stable in Ht.
    rewrite (decide_True (P := hdr_type h = _)) by done.
    destruct (decide (hdr_hits (headers m k) = 0)) as [H0|H0].
    + autorewrite with stores. fold h in H0. by rewrite H0, wrap_0.
    + by autorewrite with stores.
Qed.

Lemma handle_cmp_sub_other m context a b size j :
  j ≠ instrument_get_offset_hash (ctx_read_reg context X86_REG_RIP) →
  headers (cmplog_handle_cmp_sub m context a b size) j = headers m j
  ∧ log (cmplog_handle_cmp_sub m context a b size) j = log m j.
Proof.
  intros Hj. unfold cmplog_handle_cmp_sub.
  repeat case_decide; by autorewrite with stores.
Qed.


(** The tests of lines 90 and 92, as [captured] states them. *)
Lemma call_tests_pass context :
  below_top (ctx_read_reg context X86_REG_RDI)
  && below_top (ctx_read_reg context X86_REG_RSI)
  && cmplog_is_readable (ctx_read_reg context X86_REG_RDI) 31
  && cmplog_is_readable (ctx_read_reg context X86_REG_RSI) 31 = true →
  (wrap 64 (G_MAXULONG - ctx_read_reg context X86_REG_RDI) <? 31)
  || (wrap 64 (G_MAXULONG - ctx_read_reg context X86_REG_RSI) <? 31) = false
  ∧ negb (cmplog_is_readable (ctx_read_reg context X86_REG_RDI) 31)
    || negb (cmplog_is_readable (ctx_read_reg context X86_REG_RSI) 31) = false.
Proof.
  unfold below_top. rewrite !andb_true_iff, !negb_true_iff.
  intros [[[-> ->] ->] ->]. done.
Qed.

Lemma call_tests_fail m memory context :
  below_top (ctx_read_reg context X86_REG_RDI)
  && below_top (ctx_read_reg context X86_REG_RSI)
  && cmplog_is_readable (ctx_read_reg context X86_REG_RDI) 31
  && cmplog_is_readable (ctx_read_reg context X86_REG_RSI) 31 = false →
  cmplog_call_callout m memory context = m.
Proof.
  unfold cmplog_call_callout, below_top. intros Hf.
  destruct (_ <? 31); [done|]. destruct (_ <? 31); [done|].
  destruct (cmplog_is_readable _ 31); [|done].
  destruct (cmplog_is_readable _ 31); done.
Qed.

Section call_passes.
Context (m : cmp_map) (memory : Memory) (context : GumCpuContext).
Hypothesis tests :
  below_top (ctx_read_reg context X86_REG_RDI)
  && below_top (ctx_read_reg context X86_REG_RSI)
  && cmplog_is_readable (ctx_read_reg context X86_REG_RDI) 31
  && cmplog_is_readable (ctx_read_reg context X86_REG_RSI) 31 = true.

Let k := instrument_get_offset_hash (ctx_read_reg context X86_REG_RIP).
Let h := headers m k.

Lemma call_callout_header :
  headers (cmplog_call_callout m memory context) k
  = {| hdr_hits := wrap HITS_BITS (wrap 32 (start_hits CMP_TYPE_RTN h + 1));
       hdr_shape := if reclassified CMP_TYPE_RTN h
                    then wrap SHAPE_BITS 30 else hdr_shape h;
       hdr_type := CMP_TYPE_RTN |}.
Proof.
  unfold cmplog_call_callout.
  destruct (call_tests_pass _ tests) as [-> ->]. fold k.
  unfold reclassified, start_hits. fold h.
  destruct (decide (hdr_type h ≠ CMP_TYPE_RTN)) as [Ht|Ht].
  - rewrite (decide_True (P := hdr_hits _ = 0)).
    2:{ autorewrite with stores. apply wrap_0. }
    autorewrite with stores. simpl.
    rewrite bool_decide_eq_true_2 by (by left).
    by rewrite decide_False by done.
  - apply dec_stable in Ht.
    rewrite (decide_True (P := hdr_type h = _)) by done.
    destruct (decide (hdr_hits (headers m k) = 0)) as [H0|H0].
    + autorewrite with stores. simpl.
      rewrite bool_decide_eq_true_2 by (by right).
      fold h in H0 |- *. by rewrite H0, wrap_0, Ht.
    + autorewrite with stores. simpl.
      rewrite bool_decide_eq_false_2 by (fold h in H0; tauto).
      fold h. by rewrite Ht.
Qed.

Lemma call_callout_log :
  log (cmplog_call_callout m memory context) k
  = LogRtn (<[Z.land (start_hits CMP_TYPE_RTN h) (CMP_MAP_RTN_H - 1)
              := Some {| fn_v0 := read_bytes memory
                                    (ctx_read_reg context X86_REG_RDI) 31;
                         fn_v0_len := 31;
                         fn_v1 := read_bytes memory
                                    (ctx_read_reg context X86_REG_RSI) 31;
                         fn_v1_len := 31 |}]> (rtn_view (log m k))).
Proof.
  unfold cmplog_call_callout.
  destruct (call_tests_pass _ tests) as [-> ->]. fold k.
  unfold start_hits. fold h.
  destruct (decide (hdr_type h ≠ CMP_TYPE_RTN)) as [Ht|Ht].
  - rewrite (decide_True (P := hdr_hits _ = 0)).
    2:{ autorewrite with stores. apply wrap_0. }
    autorewrite with stores.
    by rewrite decide_False by done.
  - apply dec_stable in Ht.
    rewrite (decide_True (P := hdr_type h = _)) by done.
    destruct (decide (hdr_hits (headers m k) = 0)) as [H0|H0].
    + autorewrite with stores. fold h in H0. by rewrite H0, wrap_0.
    + by autorewrite with stores.
Qed.

Lemma call_callout_other j :
  j ≠ k →
  headers (cmplog_call_callout m memory context) j = headers m j
  ∧ log (cmplog_call_callout m memory context) j = log m j.
Proof.
  intros Hj. unfold cmplog_call_callout.
  destruct (call_tests_pass _ tests) as [-> ->]. fold k.
  repeat case_decide; by autorewrite with stores.
Qed.

End call_passes.

End capture_steps.

(** ** Rings *)

Section rings.
Context {A : Type}.
Implicit Types (ring : Z → A) (xs : list A).

Lemma ring_fill_cons H p ring x xs :
  ring_fill H p ring (x :: xs)
  = ring_fill H ((p + 1) `mod` H) (<[p := x]> ring) xs.
Proof. done. Qed.

Lemma ring_fill_untouched H p ring xs q :
  0 < H → 0 ≤ p < H →
  (∀ j, 0 ≤ j < Z.of_nat (length xs) → (p + j) `mod` H ≠ q) →
  ring_fill H p ring xs q = ring q.
Proof.
  intros HH. revert p ring.
  induction xs as [|x xs IH]; intros p ring Hp Hq; simpl; [done|].
  rewrite IH.
  - apply fn_lookup_insert_ne. intros ->.
    apply (Hq 0); [simpl; lia|]. rewrite Z.add_0_r. by apply Z.mod_small.
  - by apply Z.mod_pos_bound.
  - intros j Hj. rewrite Zplus_mod_idemp_l.
    replace (p + 1 + j) with (p + (j + 1)) by lia.
    apply Hq. simpl length. lia.
Qed.

(** A record written less than one turn ago is still in its slot. *)
Lemma ring_fill_lookup H p ring xs (i : nat) x :
  0 < H → 0 ≤ p < H →
  xs !! i = Some x →
  Z.of_nat (length xs) - H ≤ Z.of_nat i →
  ring_fill H p ring xs ((p + Z.of_nat i) `mod` H) = x.
Proof.
  intros HH. revert p ring i x.
  induction xs as [|x0 xs IH]; intros p ring i x Hp Hx Hi; [done|].
  destruct i as [|i]; simpl in Hx |- *.
  - injection Hx as ->. change (Z.of_nat 0) with 0.
    rewrite Z.add_0_r, (Z.mod_small p H) by done.
    rewrite ring_fill_untouched; [apply fn_lookup_insert|done|..].
    + by apply Z.mod_pos_bound.
    + intros j Hj. rewrite Zplus_mod_idemp_l.
      replace (p + 1 + j) with (p + (j + 1)) by lia.
      rewrite <- (Z.mod_small p H) at 2 by done.
      apply ring_slots_differ. simpl length in Hi. lia.
  - replace (p + Z.of_nat (S i)) with (p + 1 + Z.of_nat i) by lia.
    rewrite <- (Zplus_mod_idemp_l (p + 1) (Z.of_nat i) H).
    apply IH; [by apply Z.mod_pos_bound|done|simpl length in Hi; lia].
Qed.

(** Once at least [H] records are written, the ring read from the slot
    written next is the last [H] records in the order they were written. *)
Lemma ring_fill_readout H p ring xs :
  0 < H → 0 ≤ p < H →
  H ≤ Z.of_nat (length xs) →
  ring_readout H ((p + Z.of_nat (length xs)) `mod` H) (ring_fill H p ring xs)
  = drop (Z.to_nat (Z.of_nat (length xs) - H)) xs.
Proof.
  intros HH Hp Hn. apply list_eq. intros j.
  unfold ring_readout. rewrite list_lookup_fmap, lookup_drop.
  destruct (decide (Z.of_nat j < H)) as [Hj|Hj].
  - rewrite lookup_seqZ_lt by done. simpl.
    destruct (lookup_lt_is_Some_2 xs (Z.to_nat (Z.of_nat (length xs) - H) + j))
      as [x Hx]; [lia|].
    rewrite Hx. f_equal.
    rewrite <- (ring_fill_lookup H p ring xs _ x HH Hp Hx) by lia.
    f_equal. rewrite Zplus_mod_idemp_l.
    rewrite Nat2Z.inj_add, Z2Nat.id by lia.
    replace (p + Z.of_nat (length xs) + (0 + Z.of_nat j))
      with (p + (Z.of_nat (length xs) - H + Z.of_nat j) + 1 * H) by lia.
    apply Z_mod_plus_full.
  - rewrite lookup_seqZ_ge by lia. simpl.
    symmetry. apply lookup_ge_None. lia.
Qed.

Lemma ring_fill_ext H p ring1 ring2 xs :
  (∀ i, ring1 i = ring2 i) →
  ∀ i, ring_fill H p ring1 xs i = ring_fill H p ring2 xs i.
Proof.
  revert p ring1 ring2.
  induction xs as [|x xs IH]; intros p ring1 ring2 Heq i; simpl; [done|].
  apply IH. intros i'.
  destruct (decide (i' = p)) as [->|Hne].
  - by rewrite !fn_lookup_insert.
  - by rewrite !fn_lookup_insert_ne.
Qed.

End rings.

(** ** Events that capture a record *)

Section events.
Context `{Env : cmplog_env}.

Lemma start_hits_range t h : 0 ≤ start_hits t h < 2 ^ 32.
Proof.
  unfold start_hits. case_decide; [by apply wrap_range|lia].
Qed.

(** For a header whose [hits] is a value of its field, the count taken up
    is the stored count. *)
Lemma start_hits_stored t h :
  0 < HITS_BITS ≤ 32 → hdr_ok h → hdr_type h = t →
  start_hits t h = hdr_hits h.
Proof.
  intros Hw Hh Ht. unfold start_hits. rewrite decide_True by done.
  apply wrap_small. unfold hdr_ok in Hh.
  assert (2 ^ HITS_BITS ≤ 2 ^ 32) by (apply Z.pow_le_mono_r; lia). lia.
Qed.

Lemma ring_capacity_pos t : env_ok → 0 < ring_capacity t.
Proof.
  intros [[n [Hn Hn']] [n2 [Hn2 Hn2']] _ _].
  destruct t; simpl; rewrite ?Hn', ?Hn2'; apply Z.pow_pos_nonneg; lia.
Qed.

(** The mask of lines 115 and 181 takes the count modulo the capacity. *)
Lemma ring_index_mask t x :
  env_ok → Z.land x (ring_capacity t - 1) = x `mod` ring_capacity t.
Proof.
  intros [[n [Hn Hn']] [n2 [Hn2 Hn2']] _ _].
  destruct t; simpl; rewrite ?Hn', ?Hn2'; apply land_mask; lia.
Qed.

(** A count and its value in the [hits] field are in the same slot. *)
Lemma ring_index_wrap t x :
  env_ok → wrap HITS_BITS x `mod` ring_capacity t = x `mod` ring_capacity t.
Proof.
  intros [[n [Hn Hn']] [n2 [Hn2 Hn2']] _ _]. unfold wrap.
  destruct t; simpl; rewrite ?Hn', ?Hn2';
    apply Z.mod_mod_divide, pow2_divide; lia.
Qed.

Lemma hits_field_wrap x : env_ok → wrap HITS_BITS (wrap 32 x) = wrap HITS_BITS x.
Proof. intros [_ _ Hw _]. apply wrap_wrap. lia. Qed.

Lemma captured_cmp_sub e r :
  captured e = Some (Rec_ins r) →
  ∃ ud, ev_callout e = Callout_cmp_sub ud
    ∧ cmplog_get_operand_value (ev_memory e) (ev_context e) (operand1 ud)
      = Done (Some (v0 r))
    ∧ cmplog_get_operand_value (ev_memory e) (ev_context e) (operand2 ud)
      = Done (Some (v1 r)).
Proof.
  unfold captured. destruct (ev_callout e) as [|ud].
  - by destruct (_ && _).
  - destruct (cmplog_get_operand_value _ _ (operand1 ud)) as [[a|]|] eqn:E1;
      [|done..].
    destruct (cmplog_get_operand_value _ _ (operand2 ud)) as [[b|]|] eqn:E2;
      [|done..].
    intros [= <-]. by exists ud.
Qed.

Lemma captured_call e r :
  captured e = Some (Rec_rtn r) →
  ev_callout e = Callout_call
  ∧ below_top (ctx_read_reg (ev_context e) X86_REG_RDI)
    && below_top (ctx_read_reg (ev_context e) X86_REG_RSI)
    && cmplog_is_readable (ctx_read_reg (ev_context e) X86_REG_RDI) 31
    && cmplog_is_readable (ctx_read_reg (ev_context e) X86_REG_RSI) 31 = true
  ∧ r = {| fn_v0 := read_bytes (ev_memory e)
                      (ctx_read_reg (ev_context e) X86_REG_RDI) 31;
           fn_v0_len := 31;
           fn_v1 := read_bytes (ev_memory e)
                      (ctx_read_reg (ev_context e) X86_REG_RSI) 31;
           fn_v1_len := 31 |}.
Proof.
  unfold captured. destruct (ev_callout e) as [|ud].
  - destruct (_ && _) eqn:Ht; [|done]. by intros [= <-].
  - destruct (cmplog_get_operand_value _ _ (operand1 ud)) as [[a|]|];
      [|done..].
    by destruct (cmplog_get_operand_value _ _ (operand2 ud)) as [[b|]|].
Qed.

(** One capturing event: the callout returns, and the entry at the event's
    key is the only one it writes. *)
Lemma run_event_captured m e r :
  env_ok → captured e = Some r →
  let k := event_key e in
  let t := record_type r in
  let h := headers m k in
  ∃ m', run_event m e = Done m'
    ∧ headers m' k
      = {| hdr_hits := wrap HITS_BITS (start_hits t h + 1);
           hdr_shape := if reclassified t h
                        then wrap SHAPE_BITS (event_shape e) else hdr_shape h;
           hdr_type := t |}
    ∧ (∀ i, log_view (log m' k) t i
            = <[start_hits t h `mod` ring_capacity t := Some r]>
                (log_view (log m k) t) i)
    ∧ (∀ j, j ≠ k → headers m' j = headers m j ∧ log m' j = log m j).
Proof.
  intros Hok Hc k t h. destruct r as [r|r].
  - destruct (captured_cmp_sub _ _ Hc) as (ud & Hud & H1 & H2).
    exists (cmplog_handle_cmp_sub m (ev_context e) (v0 r) (v1 r)
              (ctx_size (operand1 ud))).
    split; [|split; [|split]].
    + unfold run_event, run_callout. rewrite Hud.
      unfold cmplog_cmp_sub_callout. rewrite H1. simpl. by rewrite H2.
    + unfold k, event_key. rewrite handle_cmp_sub_header.
      rewrite hits_field_wrap by done.
      unfold event_shape. by rewrite Hud.
    + intros i. unfold k, event_key. rewrite handle_cmp_sub_log.
      rewrite (ring_index_mask CMP_TYPE_INS) by done. simpl.
      destruct r as [a b]; simpl.
      destruct (decide (i = start_hits CMP_TYPE_INS
                              (headers m (instrument_get_offset_hash
                                 (ctx_read_reg (ev_context e) X86_REG_RIP)))
                            `mod` CMP_MAP_H)) as [->|Hi].
      * by rewrite !fn_lookup_insert.
      * by rewrite !fn_lookup_insert_ne.
    + intros j Hj. by apply handle_cmp_sub_other.
  - destruct (captured_call _ _ Hc) as (Hcall & Ht & ->).
    exists (cmplog_call_callout m (ev_memory e) (ev_context e)).
    split; [|split; [|split]].
    + unfold run_event, run_callout. by rewrite Hcall.
    + unfold k, event_key. rewrite call_callout_header by done.
      rewrite hits_field_wrap by done.
      unfold event_shape. by rewrite Hcall.
    + intros i. unfold k, event_key. rewrite call_callout_log by done.
      rewrite (ring_index_mask CMP_TYPE_RTN) by done. simpl.
      destruct (decide (i = start_hits CMP_TYPE_RTN
                              (headers m (instrument_get_offset_hash
                                 (ctx_read_reg (ev_context e) X86_REG_RIP)))
                            `mod` CMP_MAP_RTN_H)) as [->|Hi].
      * by rewrite !fn_lookup_insert.
      * by rewrite !fn_lookup_insert_ne.
    + intros j Hj. by apply call_callout_other.
Qed.

End events.

(** ** Captures of one type at one key, one after the other *)

Section traces.
Context `{Env : cmplog_env}.
Hypothesis Hok : env_ok.
Variables (k : Z) (t : cmp_type).

Lemma start_hits_after x s :
  start_hits t {| hdr_hits := wrap HITS_BITS x; hdr_shape := s; hdr_type := t |}
  = wrap HITS_BITS x.
Proof.
  unfold start_hits; simpl. rewrite decide_True by done.
  destruct Hok as [_ _ Hw _].
  assert (Hw0 : 0 ≤ HITS_BITS) by lia.
  pose proof (wrap_range HITS_BITS x Hw0).
  assert (2 ^ HITS_BITS ≤ 2 ^ 32) by (apply Z.pow_le_mono_r; lia).
  apply wrap_small. lia.
Qed.

(** After any number of captures the counter is the count taken up plus the
    number of captures, as far as the field holds it, and the ring is the
    ring filled from the slot of that count on. *)
Lemma run_events_captured rest :
  ∀ e m,
    Forall (captures_at k t) (e :: rest) →
    ∃ m', run_events m (e :: rest) = Done m'
      ∧ hdr_type (headers m' k) = t
      ∧ hdr_hits (headers m' k)
        = wrap HITS_BITS (start_hits t (headers m k)
                          + Z.of_nat (length (e :: rest)))
      ∧ (∀ i, log_view (log m' k) t i
              = ring_fill (ring_capacity t)
                  (start_hits t (headers m k) `mod` ring_capacity t)
                  (log_view (log m k) t) (captured <$> e :: rest) i)
      ∧ (∀ j, j ≠ k → headers m' j = headers m j ∧ log m' j = log m j).
Proof.
  induction rest as [|e2 rest IH]; intros e m HF.
  - apply Forall_cons in HF as [(Hk & r & Hc & Ht) _].
    destruct (run_event_captured m e r Hok Hc) as (m' & Hrun & Hh & Hl & Ho).
    rewrite Hk in Hh, Hl, Ho. rewrite Ht in Hh, Hl.
    exists m'. simpl. rewrite Hrun. simpl.
    split; [done|]. rewrite Hh. simpl.
    split; [done|]. split; [done|]. split; [|done].
    intros i. by rewrite Hl, Hc.
  - apply Forall_cons in HF as [(Hk & r & Hc & Ht) HF].
    destruct (run_event_captured m e r Hok Hc) as (m1 & Hrun & Hh & Hl & Ho).
    rewrite Hk in Hh, Hl, Ho. rewrite Ht in Hh, Hl.
    destruct (IH e2 m1 HF) as (m' & Hrun' & Ht' & Hh' & Hl' & Ho').
    exists m'.
    split; [|split; [|split; [|split]]].
    + change (run_events m (e :: e2 :: rest))
        with (run_event m e ≫= λ m1, run_events m1 (e2 :: rest)).
      rewrite Hrun. exact Hrun'.
    + done.
    + rewrite Hh'. rewrite Hh, start_hits_after.
      unfold wrap. rewrite Zplus_mod_idemp_l. f_equal.
      simpl length. lia.
    + intros i. rewrite Hl'. rewrite Hh, start_hits_after.
      rewrite ring_index_wrap by done.
      rewrite (fmap_cons captured e), Hc, ring_fill_cons.
      rewrite mod_add_1 by (by apply ring_capacity_pos).
      by apply ring_fill_ext.
    + intros j Hj. destruct (Ho j Hj) as [<- <-]. by apply Ho'.
Qed.

(** As long as the field holds the count, the counter is the count: no
    capture after the first one re-classifies the entry. *)
Lemma run_events_header rest :
  ∀ e m,
    Forall (captures_at k t) (e :: rest) →
    start_hits t (headers m k) + Z.of_nat (length (e :: rest))
      < 2 ^ HITS_BITS →
    ∃ m', run_events m (e :: rest) = Done m'
      ∧ headers m' k
        = {| hdr_hits := start_hits t (headers m k)
                         + Z.of_nat (length (e :: rest));
             hdr_shape := if reclassified t (headers m k)
                          then wrap SHAPE_BITS (event_shape e)
                          else hdr_shape (headers m k);
             hdr_type := t |}.
Proof.
  induction rest as [|e2 rest IH]; intros e m HF Hn;
    apply Forall_cons in HF as [(Hk & r & Hc & Ht) HF];
    destruct (run_event_captured m e r Hok Hc) as (m1 & Hrun & Hh & _);
    rewrite Hk, Ht in Hh;
    pose proof (start_hits_range t (headers m k)) as Hs;
    simpl length in Hn.
  - exists m1. simpl. rewrite Hrun. simpl. split; [done|].
    rewrite Hh. f_equal. apply wrap_small. lia.
  - assert (Hh1 : hdr_hits (headers m1 k) = start_hits t (headers m k) + 1).
    { rewrite Hh. simpl. apply wrap_small. lia. }
    assert (Hs1 : start_hits t (headers m1 k)
                  = start_hits t (headers m k) + 1).
    { rewrite Hh, start_hits_after. apply wrap_small. lia. }
    destruct (IH e2 m1 HF) as (m' & Hrun' & Hh').
    { rewrite Hs1. simpl length. lia. }
    exists m'. split.
    + change (run_events m (e :: e2 :: rest))
        with (run_event m e ≫= λ m1, run_events m1 (e2 :: rest)).
      rewrite Hrun. exact Hrun'.
    + rewrite Hh', Hs1. f_equal.
      * simpl length. lia.
      * assert (Hr : reclassified t (headers m1 k) = false).
        { unfold reclassified. apply bool_decide_eq_false_2.
          rewrite Hh1. rewrite Hh. simpl. intros [?|?]; [done|lia]. }
        rewrite Hr. by rewrite Hh.
Qed.

End traces.

(** ** Operand evaluation *)

Section operand_value.
Context `{Env : cmplog_env}.

(** The sum of line 41, computed in [gsize], is the spec's address. *)
Lemma read_mem_address context mem :
  wrap 64
    (wrap 64
       ((if decide (mem_base mem ≠ X86_REG_INVALID)
         then ctx_read_reg context (mem_base mem) else 0)
        + wrap 64
            ((if decide (mem_index mem ≠ X86_REG_INVALID)
              then ctx_read_reg context (mem_index mem) else 0)
             * wrap 64 (mem_scale mem)))
     + wrap 64 (mem_disp mem))
  = effective_address context mem.
Proof.
  unfold effective_address, reg_or_zero, wrap.
  set (b := if decide (mem_base mem ≠ X86_REG_INVALID) then _ else 0).
  set (i := if decide (mem_index mem ≠ X86_REG_INVALID) then _ else 0).
  replace (if decide (mem_base mem = X86_REG_INVALID) then 0 else _) with b
    by (unfold b; repeat case_decide; done).
  replace (if decide (mem_index mem = X86_REG_INVALID) then 0 else _) with i
    by (unfold i; repeat case_decide; done).
  rewrite Zplus_mod_idemp_r, Zplus_mod_idemp_l.
  rewrite Zmult_mod_idemp_r.
  rewrite (Z.add_comm b), <- Z.add_assoc, Zplus_mod_idemp_l.
  f_equal. lia.
Qed.

Lemma read_mem_size_case {A} size (a1 a2 a4 a8 other : A) :
  match size with
  | 1 => a1 | 2 => a2 | 4 => a4 | 8 => a8 | _ => other
  end
  = if decide (size = 1) then a1
    else if decide (size = 2) then a2
    else if decide (size = 4) then a4
    else if decide (size = 8) then a8
    else other.
Proof.
  destruct size as [|p|p]; [done| |done].
  do 4 (try destruct p as [p|p|]); done.
Qed.

Lemma cmplog_read_mem_spec memory context size mem :
  cmplog_read_mem memory context size mem
  = let address := effective_address context mem in
    if cmplog_is_readable address size
    then if supported_size size
         then Done (Some (le_combine (read_bytes memory address size)))
         else Fatal
    else Done None.
Proof.
  unfold cmplog_read_mem. cbv zeta. rewrite read_mem_address.
  destruct (cmplog_is_readable _ size); simpl; [|done].
  rewrite read_mem_size_case. unfold supported_size.
  repeat case_decide; subst;
    (rewrite bool_decide_eq_true_2 by tauto)
    || (rewrite bool_decide_eq_false_2 by tauto); done.
Qed.

End operand_value.

(** C4, as amended. A register operand evaluates to the register's value and
    an immediate to the embedded constant as a [gsize], both always with
    success. A memory operand is read at
    [base + index * scale + displacement], a register term being zero when
    the register is absent: if the probe rejects the range the evaluation
    fails ([FALSE]), whatever the width; if the probe accepts it, the
    evaluation succeeds with the little-endian value of the bytes at that
    address for the widths 1, 2, 4 and 8, and ends in [FFATAL] for any
    other width. *)
Theorem operand_value_correct `{Env : cmplog_env} memory context ctx :
  cmplog_get_operand_value memory context ctx
  = match ctx_type ctx with
    | X86_OP_REG => Done (Some (ctx_read_reg context (ctx_reg ctx)))
    | X86_OP_IMM => Done (Some (ctx_imm ctx `mod` 2 ^ 64))
    | X86_OP_MEM =>
        let address := effective_address context (ctx_mem ctx) in
        if cmplog_is_readable address (ctx_size ctx)
        then if supported_size (ctx_size ctx)
             then Done (Some (le_combine
                                (read_bytes memory address (ctx_size ctx))))
             else Fatal
        else Done None
    | X86_OP_INVALID => Fatal
    end.
Proof.
  unfold cmplog_get_operand_value.
  destruct (ctx_type ctx); try done. apply cmplog_read_mem_spec.
Qed.

(** C4 as stated fails: a memory operand 16 bytes wide at a readable address
    neither succeeds nor fails with [FALSE]; it ends in [FFATAL]. *)
Lemma wide_memory_operand_fatal :
  cmplog_is_readable (cmplog_env := sample_env)
    (effective_address (sample_context 0x401000 7 0 0) (absolute 0x5000)) 16
  = true
  ∧ cmplog_get_operand_value (Env := sample_env) sample_memory
      (sample_context 0x401000 7 0 0) (mem_operand (absolute 0x5000) 16)
    = Fatal.
Proof. split; reflexivity. Qed.

(** ** Captures that are given up *)

(** C5. When an operand evaluation fails, be it the first or the second
    after the first succeeded, or when the probe rejects 31 bytes at either
    pointer of a call, the callout returns without an error and the map it
    leaves is the map it found. *)
Theorem capture_given_up `{Env : cmplog_env} m e :
  gives_up e → run_event m e = Done m.
Proof.
  unfold gives_up, run_event, run_callout.
  destruct (ev_callout e) as [|ud].
  - intros Hr. f_equal. unfold cmplog_call_callout.
    destruct (_ || _); [done|].
    destruct Hr as [-> | ->]; simpl; [done|].
    by destruct (cmplog_is_readable _ 31).
  - unfold cmplog_cmp_sub_callout.
    intros [-> | [[a ->] ->]]; done.
Qed.

Lemma capture_given_up_witness :
  (gives_up (Env := sample_env) cmp_first_unreadable
   ∧ run_event (Env := sample_env) zero_map cmp_first_unreadable
     = Done zero_map)
  ∧ (gives_up (Env := sample_env) cmp_second_unreadable
     ∧ run_event (Env := sample_env) zero_map cmp_second_unreadable
       = Done zero_map)
  ∧ (gives_up (Env := sample_env) call_unreadable
     ∧ run_event (Env := sample_env) zero_map call_unreadable
       = Done zero_map).
Proof.
  assert (H1 : gives_up (Env := sample_env) cmp_first_unreadable)
    by (left; reflexivity).
  assert (H2 : gives_up (Env := sample_env) cmp_second_unreadable)
    by (right; split; [by exists 7 | reflexivity]).
  assert (H3 : gives_up (Env := sample_env) call_unreadable)
    by (right; reflexivity).
  split; [|split].
  - split; [exact H1|].
    exact (capture_given_up (Env := sample_env) zero_map _ H1).
  - split; [exact H2|].
    exact (capture_given_up (Env := sample_env) zero_map _ H2).
  - split; [exact H3|].
    exact (capture_given_up (Env := sample_env) zero_map _ H3).
Defined.

(** C9. When [rdi] or [rsi] holds a value less than 31 below the largest
    address, so that the address 31 bytes further on does not exist, the
    call-site callout returns the map as it found it, whatever the probe
    would answer and whatever memory holds: neither is consulted. *)
Theorem call_near_top_skipped `{Env : cmplog_env} m memory context :
  G_MAXULONG - ctx_read_reg context X86_REG_RDI < 31
  ∨ G_MAXULONG - ctx_read_reg context X86_REG_RSI < 31 →
  cmplog_call_callout m memory context = m.
Proof.
  intros Hr. unfold cmplog_call_callout.
  assert (Hrange : ∀ reg, wrap 64 (G_MAXULONG - ctx_read_reg context reg)
                          = G_MAXULONG - ctx_read_reg context reg).
  { intros reg. apply wrap_small. unfold G_MAXULONG.
    pose proof (wrap_range 64 (context reg)) as Hreg.
    unfold ctx_read_reg. lia. }
  rewrite !Hrange.
  destruct Hr as [Hr|Hr].
  - by rewrite (proj2 (Z.ltb_lt _ _) Hr).
  - rewrite (proj2 (Z.ltb_lt _ _) Hr). by rewrite orb_true_r.
Qed.

Lemma call_near_top_skipped_witness :
  (G_MAXULONG - ctx_read_reg (ev_context call_near_top) X86_REG_RDI < 31
   ∨ G_MAXULONG - ctx_read_reg (ev_context call_near_top) X86_REG_RSI < 31)
  ∧ cmplog_call_callout (Env := open_env) zero_map sample_memory
      (ev_context call_near_top) = zero_map.
Proof.
  assert (H : G_MAXULONG
              - ctx_read_reg (ev_context call_near_top) X86_REG_RDI < 31)
    by (vm_compute; reflexivity).
  split; [by left|].
  apply (call_near_top_skipped (Env := open_env)). by left.
Defined.

(** The test of line 90 is the test that the address 31 bytes on wraps. *)
Lemma near_top_wraps context reg :
  G_MAXULONG - ctx_read_reg context reg < 31
  ↔ 2 ^ 64 ≤ ctx_read_reg context reg + 31.
Proof. unfold G_MAXULONG. lia. Qed.

(** ** The instrumentation selector *)

(** C10. With no comparison map set up, [cmplog_instrument] returns at once
    and attaches nothing: the iterator comes back as it was for every
    instruction, hence for every block of instructions, and running any
    instruction of the target leaves any map as it was. *)
Theorem instrument_without_map :
  (∀ instr iterator, cmplog_instrument None instr iterator = Done iterator)
  ∧ (∀ instrs iterator,
       cmplog_instrument_block None instrs iterator = Done iterator)
  ∧ (∀ (Env : cmplog_env) instr m memory context,
       run_instrumented None instr m memory context = Done m).
Proof.
  split; [done|]. split; [|done].
  intros instrs. induction instrs as [|instr instrs IH]; intros iterator.
  - done.
  - simpl. apply IH.
Qed.

Lemma instrument_call_not_call instr iterator :
  insn_id instr ≠ X86_INS_CALL →
  cmplog_instrument_call instr iterator = iterator.
Proof. intros Hid. unfold cmplog_instrument_call. by rewrite decide_True. Qed.

Lemma is_cmp_sub_not_call id : is_cmp_sub id = true → id ≠ X86_INS_CALL.
Proof. by intros Hid ->. Qed.

(** C6. A comparison or subtraction whose first operand is one byte wide -
    both operands have the same width - gets no callout, with or without a
    map: the selector hands the iterator back as it was, so that running the
    instruction leaves every header and every ring as it was. *)
Theorem single_byte_cmp_excluded afl_cmp_map instr :
  is_cmp_sub (insn_id instr) = true →
  op_size (nth 0 (operands (insn_x86 instr)) no_operand) = 1 →
  (∀ iterator, cmplog_instrument afl_cmp_map instr iterator = Done iterator)
  ∧ (∀ (Env : cmplog_env) m memory context,
       run_instrumented afl_cmp_map instr m memory context = Done m).
Proof.
  intros Hid Hsize.
  assert (Hnone : ∀ iterator,
            cmplog_instrument afl_cmp_map instr iterator = Done iterator).
  { intros iterator. unfold cmplog_instrument.
    destruct afl_cmp_map as [map|]; [|done].
    rewrite instrument_call_not_call by by apply is_cmp_sub_not_call.
    unfold cmplog_instrument_cmp_sub. rewrite Hid. simpl.
    repeat case_decide; done. }
  split; [done|].
  intros Env m memory context. unfold run_instrumented.
  by rewrite Hnone.
Qed.

Lemma single_byte_cmp_excluded_witness :
  is_cmp_sub (insn_id cmp_al_5) = true
  ∧ op_size (nth 0 (operands (insn_x86 cmp_al_5)) no_operand) = 1
  ∧ cmplog_instrument (Some zero_map) cmp_al_5 [] = Done []
  ∧ run_instrumented (Env := sample_env) (Some zero_map) cmp_al_5 zero_map
      sample_memory (sample_context 0x401000 7 0 0) = Done zero_map.
Proof.
  split; [reflexivity|]. split; [reflexivity|].
  split;
    apply (single_byte_cmp_excluded (Some zero_map) cmp_al_5
             eq_refl eq_refl).
Defined.

(** ** The trace table *)

Lemma Traces_load_traces rows :
  ∀ this,
    dom (Traces (load_traces this rows))
    = list_to_set rows.*1 ∪ dom (Traces this).
Proof.
  unfold load_traces.
  induction rows as [|[key row] rows IH]; intros this; simpl.
  - by rewrite (left_id_L ∅ (∪)).
  - rewrite IH. simpl. rewrite dom_insert_L.
    rewrite (assoc_L (∪)). f_equal. apply (comm_L (∪)).
Qed.

(** C8. [Get] returns the vector stored in the trace table under the
    fingerprint when there is one and nothing otherwise: it is the lookup
    in [Traces]; it finds nothing in a cleared table, it finds a row under
    the fingerprint the row was loaded with, and in a table filled by
    loading rows it finds a vector exactly for the fingerprints loaded.
    A call hands the object back as it was: after any sequence of [Get]
    calls the trace table, the coverage and the corpus hashes are those
    before the calls, and each call returned what a lookup then returns. *)
Theorem Get_lookup this InputSha1 :
  Get this InputSha1 = Traces this !! InputSha1
  ∧ (is_Some (Get this InputSha1) ↔ InputSha1 ∈ dom (Traces this))
  ∧ Get (Clear this) InputSha1 = None
  ∧ (∀ key row, Get (load_trace this key row) InputSha1
                = if decide (key = InputSha1) then Some row
                  else Get this InputSha1)
  ∧ (∀ rows, is_Some (Get (load_traces (Clear this) rows) InputSha1)
             ↔ InputSha1 ∈ rows.*1)
  ∧ (∀ keys, call_Gets this keys = (this, Get this <$> keys)).
Proof.
  assert (HGet : ∀ t key, Get t key = Traces t !! key).
  { intros t key. unfold Get. by destruct (Traces t !! key). }
  split; [done|]. split; [|split; [|split; [|split]]].
  - by rewrite HGet, elem_of_dom.
  - by rewrite HGet.
  - intros key row. rewrite !HGet. simpl. apply lookup_insert.
  - intros rows. rewrite HGet, <- elem_of_dom, Traces_load_traces.
    simpl. rewrite dom_empty_L, (right_id_L ∅ (∪)).
    apply elem_of_list_to_set.
  - intros keys. induction keys as [|key keys IH]; simpl; [done|].
    by rewrite IH.
Qed.

(** ** What the ring holds after a run of captures *)

Section ring_contents.
Context `{Env : cmplog_env}.
Hypothesis Hok : env_ok.
Variables (k : Z) (t : cmp_type).

Lemma run_events_ring e rest m m' (i : nat) e_i :
  Forall (captures_at k t) (e :: rest) →
  run_events m (e :: rest) = Done m' →
  (e :: rest) !! i = Some e_i →
  Z.of_nat (length (e :: rest)) - ring_capacity t ≤ Z.of_nat i →
  log_view (log m' k) t
    ((start_hits t (headers m k) + Z.of_nat i) `mod` ring_capacity t)
  = captured e_i.
Proof.
  intros HF Hrun Hi Hlate.
  destruct (run_events_captured Hok k t rest e m HF)
    as (m'' & Hrun' & _ & _ & Hl & _).
  rewrite Hrun in Hrun'. injection Hrun' as <-.
  pose proof (ring_capacity_pos t Hok) as HH.
  rewrite Hl, <- Zplus_mod_idemp_l.
  apply ring_fill_lookup.
  - done.
  - by apply Z.mod_pos_bound.
  - by rewrite list_lookup_fmap, Hi.
  - by rewrite length_fmap.
Qed.

Lemma run_events_readout e rest m m' :
  Forall (captures_at k t) (e :: rest) →
  run_events m (e :: rest) = Done m' →
  ring_capacity t ≤ Z.of_nat (length (e :: rest)) →
  ring_readout (ring_capacity t)
    ((start_hits t (headers m k) + Z.of_nat (length (e :: rest)))
     `mod` ring_capacity t)
    (log_view (log m' k) t)
  = captured
    <$> drop (Z.to_nat (Z.of_nat (length (e :: rest)) - ring_capacity t))
          (e :: rest).
Proof.
  intros HF Hrun Hn.
  destruct (run_events_captured Hok k t rest e m HF)
    as (m'' & Hrun' & _ & _ & Hl & _).
  rewrite Hrun in Hrun'. injection Hrun' as <-.
  pose proof (ring_capacity_pos t Hok) as HH.
  rewrite fmap_drop.
  rewrite <- (length_fmap captured (e :: rest)) at 1 2.
  rewrite <- (length_fmap captured (e :: rest)) in Hn.
  rewrite <- Zplus_mod_idemp_l.
  rewrite <- (ring_fill_readout (ring_capacity t)
                (start_hits t (headers m k) `mod` ring_capacity t)
                (log_view (log m k) t) (captured <$> e :: rest))
    by (done || by apply Z.mod_pos_bound).
  unfold ring_readout. apply list_fmap_ext. intros _ j _. apply Hl.
Qed.

End ring_contents.

Lemma sample_env_ok : env_ok (Env := sample_env).
Proof.
  split; simpl.
  - exists 5. split; [lia|reflexivity].
  - exists 3. split; [lia|reflexivity].
  - lia.
  - lia.
Qed.

Lemma cmp32_event_captures :
  captures_at (Env := sample_env) 4096 CMP_TYPE_INS cmp32_event.
Proof.
  split; [reflexivity|].
  exists (Rec_ins {| v0 := 7; v1 := 5 |}). split; reflexivity.
Qed.


(** ** The three capture properties *)

Lemma start_hits_reclassified t h :
  start_hits t h = if reclassified t h then 0 else hdr_hits h `mod` 2 ^ 32.
Proof.
  destruct (reclassified t h) eqn:Hr.
  - by apply reclassified_start_hits.
  - unfold reclassified in Hr. apply bool_decide_eq_false in Hr.
    unfold start_hits. rewrite decide_True; [done|].
    destruct (decide (hdr_type h = t)); [done|tauto].
Qed.

Lemma captures_at_ins_shape `{Env : cmplog_env} k e :
  captures_at k CMP_TYPE_INS e → event_shape e = event_size e - 1.
Proof.
  intros (_ & r & Hc & Ht). destruct r as [r|r]; [|done].
  destruct (captured_cmp_sub _ _ Hc) as (ud & Hud & _).
  unfold event_shape, event_size. by rewrite Hud.
Qed.

(** C1, as amended. Take comparison captures at one key, each with both
    operands evaluated, one after the other, and let [c] be the count the
    first one takes up: 0 when it re-classifies the entry (the stored type
    is not [INS], or [hits] is 0), else the stored [hits]. As long as the
    count stays below [2 ^ HITS_BITS], after the captures the entry is typed
    [INS], [hits] is [c] plus the number of captures - after a
    re-classification, the number of captures since - and [shape] is the
    byte width less one of the comparison that re-classified the entry, or
    the stored shape when none did: a capture that does not re-classify
    leaves the shape alone. Each operand pair is written at the slot of its
    count modulo the capacity and is there as long as less than a ring's
    worth of captures followed, and no other key is touched. *)
Theorem cmp_sub_capture `{Env : cmplog_env} m k e rest :
  env_ok →
  Forall (captures_at k CMP_TYPE_INS) (e :: rest) →
  start_hits CMP_TYPE_INS (headers m k) + Z.of_nat (length (e :: rest))
    < 2 ^ HITS_BITS →
  1 ≤ event_size e ≤ 2 ^ SHAPE_BITS →
  let h := headers m k in
  let c := start_hits CMP_TYPE_INS h in
  ∃ m', run_events m (e :: rest) = Done m'
    ∧ c = (if reclassified CMP_TYPE_INS h then 0
           else hdr_hits h `mod` 2 ^ 32)
    ∧ hdr_type (headers m' k) = CMP_TYPE_INS
    ∧ hdr_shape (headers m' k)
      = (if reclassified CMP_TYPE_INS h then event_size e - 1
         else hdr_shape h)
    ∧ hdr_hits (headers m' k) = c + Z.of_nat (length (e :: rest))
    ∧ (∀ (i : nat) e_i,
         (e :: rest) !! i = Some e_i →
         Z.of_nat (length (e :: rest)) - CMP_MAP_H ≤ Z.of_nat i →
         log_view (log m' k) CMP_TYPE_INS ((c + Z.of_nat i) `mod` CMP_MAP_H)
         = captured e_i)
    ∧ (∀ j, j ≠ k → headers m' j = headers m j ∧ log m' j = log m j).
Proof.
  intros Hok HF Hn Hsize h c.
  destruct (run_events_header Hok k CMP_TYPE_INS rest e m HF Hn)
    as (m' & Hrun & Hh).
  destruct (run_events_captured Hok k CMP_TYPE_INS rest e m HF)
    as (m'' & Hrun' & _ & _ & _ & Ho).
  rewrite Hrun in Hrun'. injection Hrun' as <-.
  exists m'. split; [done|]. split; [apply start_hits_reclassified|].
  rewrite Hh. simpl. split; [done|]. split; [|split; [done|split; [|done]]].
  - fold h. destruct (reclassified CMP_TYPE_INS h); [|done].
    rewrite (captures_at_ins_shape k e) by by eapply Forall_inv.
    apply wrap_small. lia.
  - intros i e_i Hi Hlate.
    by apply (run_events_ring Hok k CMP_TYPE_INS e rest m m' i e_i).
Qed.

Lemma cmp_sub_capture_witness :
  env_ok (Env := sample_env)
  ∧ Forall (captures_at (Env := sample_env) 4096 CMP_TYPE_INS)
      [cmp32_event; cmp32_event; cmp32_event]
  ∧ start_hits CMP_TYPE_INS (headers zero_map 4096) + 3 < 2 ^ 32
  ∧ 1 ≤ event_size cmp32_event ≤ 2 ^ 5
  ∧ ∃ m', run_events (Env := sample_env) zero_map
            [cmp32_event; cmp32_event; cmp32_event] = Done m'
      ∧ hdr_type (headers m' 4096) = CMP_TYPE_INS
      ∧ hdr_shape (headers m' 4096) = 3
      ∧ hdr_hits (headers m' 4096) = 3.
Proof.
  assert (HF : Forall (captures_at (Env := sample_env) 4096 CMP_TYPE_INS)
                 [cmp32_event; cmp32_event; cmp32_event])
    by (repeat constructor; apply cmp32_event_captures).
  assert (Hn : start_hits CMP_TYPE_INS (headers zero_map 4096) + 3 < 2 ^ 32)
    by (vm_compute; reflexivity).
  assert (Hs : 1 ≤ event_size cmp32_event ≤ 2 ^ 5)
    by (vm_compute; split; discriminate).
  split; [exact sample_env_ok|]. split; [exact HF|].
  split; [exact Hn|]. split; [exact Hs|].
  destruct (cmp_sub_capture (Env := sample_env) zero_map 4096 cmp32_event
              [cmp32_event; cmp32_event] sample_env_ok HF Hn Hs)
    as (m' & Hrun & _ & Ht & Hshape & Hhits & _).
  exists m'. repeat split; assumption.
Defined.

(** C1 as stated fails: the shape is not recorded at every capture. After
    [cmp eax, 5] and then [cmp rax, 5] at an address of the same key, both
    with their operands evaluated, the shape is still 3, that of the 4-byte
    comparison, and not 7. *)
Lemma stale_shape_counterexample :
  ∃ m', run_events (Env := sample_env) zero_map [cmp32_event; cmp64_event]
        = Done m'
    ∧ event_key (Env := sample_env) cmp64_event = 4096
    ∧ captured (Env := sample_env) cmp64_event
      = Some (Rec_ins {| v0 := 7; v1 := 5 |})
    ∧ event_size cmp64_event = 8
    ∧ hdr_shape (headers m' 4096) = 3
    ∧ hdr_shape (headers m' 4096) ≠ event_size cmp64_event - 1.
Proof.
  eexists. split; [reflexivity|].
  split; [reflexivity|]. split; [reflexivity|]. split; [reflexivity|].
  split; [reflexivity|]. vm_compute. discriminate.
Qed.

(** C2, as amended. Take captures of one type at one key, each of which
    records, one after the other, and let [c] be the count the first one
    takes up. The callouts all return. Each capture adds one to [hits] modulo
    [2 ^ HITS_BITS]: after [n] captures [hits] is [(c + n) mod 2 ^ HITS_BITS],
    which is [c + n] as long as the field holds it, so [hits] goes up by one
    at each capture except from the largest value of the field, where it
    goes to 0. The mask of the code is the count modulo the capacity, the
    [i]-th capture is written at slot [(c + i) mod capacity], and the last
    ring's worth of captures are all in their slots: once at least
    [capacity] captures are made, the ring read from the slot to be written
    next, round the end, is exactly the last [capacity] captures in the order
    they were made, oldest first. *)
Theorem ring_wraparound `{Env : cmplog_env} m k t e rest :
  env_ok →
  Forall (captures_at k t) (e :: rest) →
  let c := start_hits t (headers m k) in
  let n := Z.of_nat (length (e :: rest)) in
  ∃ m', run_events m (e :: rest) = Done m'
    ∧ hdr_hits (headers m' k) = (c + n) `mod` 2 ^ HITS_BITS
    ∧ (c + n < 2 ^ HITS_BITS → hdr_hits (headers m' k) = c + n)
    ∧ (∀ x, Z.land x (ring_capacity t - 1) = x `mod` ring_capacity t)
    ∧ (∀ (i : nat) e_i,
         (e :: rest) !! i = Some e_i →
         n - ring_capacity t ≤ Z.of_nat i →
         log_view (log m' k) t ((c + Z.of_nat i) `mod` ring_capacity t)
         = captured e_i)
    ∧ (ring_capacity t ≤ n →
       ring_readout (ring_capacity t) ((c + n) `mod` ring_capacity t)
         (log_view (log m' k) t)
       = captured <$> drop (Z.to_nat (n - ring_capacity t)) (e :: rest)).
Proof.
  intros Hok HF c n.
  destruct (run_events_captured Hok k t rest e m HF)
    as (m' & Hrun & _ & Hh & _ & _).
  exists m'. split; [done|]. split; [done|]. split.
  { intros Hsmall. rewrite Hh. apply wrap_small.
    pose proof (start_hits_range t (headers m k)). fold c n. lia. }
  split; [intros x; by apply ring_index_mask|]. split.
  - intros i e_i Hi Hlate.
    by apply (run_events_ring Hok k t e rest m m' i e_i).
  - intros Hn. by apply (run_events_readout Hok k t e rest m m').
Qed.

Lemma ring_wraparound_witness :
  env_ok (Env := sample_env)
  ∧ Forall (captures_at (Env := sample_env) 4096 CMP_TYPE_INS)
      (cmp32_event :: replicate 39 cmp32_event)
  ∧ ∃ m', run_events (Env := sample_env) zero_map
            (cmp32_event :: replicate 39 cmp32_event) = Done m'
      ∧ hdr_hits (headers m' 4096) = 40
      ∧ ring_readout 32 8 (log_view (log m' 4096) CMP_TYPE_INS)
        = replicate 32 (Some (Rec_ins {| v0 := 7; v1 := 5 |})).
Proof.
  assert (HF : Forall (captures_at (Env := sample_env) 4096 CMP_TYPE_INS)
                 (cmp32_event :: replicate 39 cmp32_event)).
  { constructor; [apply cmp32_event_captures|].
    apply Forall_replicate, cmp32_event_captures. }
  assert (Hn : ring_capacity (Env := sample_env) CMP_TYPE_INS
               ≤ Z.of_nat (length (cmp32_event :: replicate 39 cmp32_event)))
    by (vm_compute; discriminate).
  split; [exact sample_env_ok|]. split; [exact HF|].
  destruct (ring_wraparound (Env := sample_env) zero_map 4096 CMP_TYPE_INS
              cmp32_event (replicate 39 cmp32_event) sample_env_ok HF)
    as (m' & Hrun & Hhits & _ & _ & _ & Hring).
  exists m'. split; [exact Hrun|]. split; [exact Hhits|exact (Hring Hn)].
Defined.

(** C2 as stated fails: the counter does not only go up. A capture at an
    entry typed [INS] whose counter is at [2 ^ 32 - 1], which the capture
    does not re-classify, leaves the counter at 0. *)
Lemma hits_wrap_counterexample :
  reclassified CMP_TYPE_INS (headers full_counter_map 4096) = false
  ∧ hdr_hits (headers full_counter_map 4096) = 4294967295
  ∧ event_key (Env := sample_env) cmp32_event = 4096
  ∧ ∃ m', run_event (Env := sample_env) full_counter_map cmp32_event
          = Done m'
      ∧ hdr_hits (headers m' 4096) = 0.
Proof.
  split; [reflexivity|]. split; [reflexivity|]. split; [reflexivity|].
  eexists. split; [reflexivity|]. vm_compute. reflexivity.
Qed.

Lemma below_top_true context reg :
  ctx_read_reg context reg + 31 ≤ G_MAXULONG →
  below_top (ctx_read_reg context reg) = true.
Proof.
  intros Hle. unfold below_top.
  rewrite wrap_small.
  - apply negb_true_iff, Z.ltb_ge. lia.
  - pose proof (wrap_range 64 (context reg)) as Hreg.
    unfold ctx_read_reg, G_MAXULONG in *. lia.
Qed.

(** C3, as amended. Take a call-site capture whose [rdi] and [rsi] both
    leave room for 31 bytes below the top of the address space and both
    point at 31 bytes the probe accepts. The callout returns; the 31 bytes at
    each pointer, with the two lengths 31, are the record at slot
    [c & (CMP_MAP_RTN_H - 1)], which is [c mod CMP_MAP_RTN_H], of the entry at
    the call site's key, where [c] is 0 when the capture re-classifies the
    entry (the stored type is not [RTN], whatever [hits] is, or [hits] is 0)
    and the stored [hits] otherwise. A re-classifying capture sets the type
    to [RTN] and the shape to 30; any other leaves type, shape and the other
    slots of the ring as they were. [hits] becomes [c + 1] modulo
    [2 ^ HITS_BITS], and no other key is touched. *)
Theorem call_capture `{Env : cmplog_env} m e :
  env_ok →
  ev_callout e = Callout_call →
  ctx_read_reg (ev_context e) X86_REG_RDI + 31 ≤ G_MAXULONG →
  ctx_read_reg (ev_context e) X86_REG_RSI + 31 ≤ G_MAXULONG →
  cmplog_is_readable (ctx_read_reg (ev_context e) X86_REG_RDI) 31 = true →
  cmplog_is_readable (ctx_read_reg (ev_context e) X86_REG_RSI) 31 = true →
  let k := event_key e in
  let h := headers m k in
  let c := start_hits CMP_TYPE_RTN h in
  let r := {| fn_v0 := read_bytes (ev_memory e)
                         (ctx_read_reg (ev_context e) X86_REG_RDI) 31;
              fn_v0_len := 31;
              fn_v1 := read_bytes (ev_memory e)
                         (ctx_read_reg (ev_context e) X86_REG_RSI) 31;
              fn_v1_len := 31 |} in
  ∃ m', run_event m e = Done m'
    ∧ c = (if reclassified CMP_TYPE_RTN h then 0
           else hdr_hits h `mod` 2 ^ 32)
    ∧ hdr_type (headers m' k) = CMP_TYPE_RTN
    ∧ hdr_shape (headers m' k)
      = (if reclassified CMP_TYPE_RTN h then 30 else hdr_shape h)
    ∧ hdr_hits (headers m' k) = (c + 1) `mod` 2 ^ HITS_BITS
    ∧ Z.land c (CMP_MAP_RTN_H - 1) = c `mod` CMP_MAP_RTN_H
    ∧ rtn_view (log m' k) (Z.land c (CMP_MAP_RTN_H - 1)) = Some r
    ∧ length (fn_v0 r) = 31%nat
    ∧ length (fn_v1 r) = 31%nat
    ∧ (∀ i, i ≠ c `mod` CMP_MAP_RTN_H →
            log_view (log m' k) CMP_TYPE_RTN i
            = log_view (log m k) CMP_TYPE_RTN i)
    ∧ (∀ j, j ≠ k → headers m' j = headers m j ∧ log m' j = log m j).
Proof.
  intros Hok Hcall Hrdi Hrsi Hr1 Hr2 k h c r.
  assert (Hc : captured e = Some (Rec_rtn r)).
  { unfold captured. rewrite Hcall.
    by rewrite !below_top_true, Hr1, Hr2 by done. }
  destruct (run_event_captured m e _ Hok Hc) as (m' & Hrun & Hh & Hl & Ho).
  simpl in Hh, Hl. fold k h c in Hh, Hl.
  pose proof (ring_index_mask CMP_TYPE_RTN c Hok) as Hmask. simpl in Hmask.
  exists m'. split; [done|]. split; [apply start_hits_reclassified|].
  rewrite Hh. simpl. split; [done|]. split; [|split; [done|]].
  { destruct (reclassified CMP_TYPE_RTN h); [|done].
    unfold event_shape. rewrite Hcall. apply wrap_small.
    destruct Hok as [_ _ _ Hs].
    assert (2 ^ 5 ≤ 2 ^ SHAPE_BITS) by (apply Z.pow_le_mono_r; lia). lia. }
  split; [done|]. split; [|split; [|split; [|split; [|done]]]].
  - specialize (Hl (c `mod` CMP_MAP_RTN_H)).
    rewrite fn_lookup_insert in Hl. rewrite Hmask.
    destruct (rtn_view (log m' k) (c `mod` CMP_MAP_RTN_H)); by simplify_eq/=.
  - done.
  - done.
  - intros i Hi. rewrite Hl. by rewrite fn_lookup_insert_ne.
Qed.

Lemma call_capture_witness :
  env_ok (Env := sample_env)
  ∧ ev_callout call_event = Callout_call
  ∧ ctx_read_reg (ev_context call_event) X86_REG_RDI + 31 ≤ G_MAXULONG
  ∧ ctx_read_reg (ev_context call_event) X86_REG_RSI + 31 ≤ G_MAXULONG
  ∧ cmplog_is_readable (cmplog_env := sample_env)
      (ctx_read_reg (ev_context call_event) X86_REG_RDI) 31 = true
  ∧ cmplog_is_readable (cmplog_env := sample_env)
      (ctx_read_reg (ev_context call_event) X86_REG_RSI) 31 = true
  ∧ ∃ m', run_event (Env := sample_env) zero_map call_event = Done m'
      ∧ hdr_type (headers m' 4096) = CMP_TYPE_RTN
      ∧ hdr_shape (headers m' 4096) = 30
      ∧ hdr_hits (headers m' 4096) = 1
      ∧ rtn_view (log m' 4096) 0
        = Some {| fn_v0 := seqZ 0 31; fn_v0_len := 31;
                  fn_v1 := seqZ 0 31; fn_v1_len := 31 |}.
Proof.
  assert (H1 : ctx_read_reg (ev_context call_event) X86_REG_RDI + 31
               ≤ G_MAXULONG) by (vm_compute; discriminate).
  assert (H2 : ctx_read_reg (ev_context call_event) X86_REG_RSI + 31
               ≤ G_MAXULONG) by (vm_compute; discriminate).
  split; [exact sample_env_ok|]. split; [reflexivity|].
  split; [exact H1|]. split; [exact H2|].
  split; [reflexivity|]. split; [reflexivity|].
  destruct (call_capture (Env := sample_env) zero_map call_event
              sample_env_ok eq_refl H1 H2 eq_refl eq_refl)
    as (m' & Hrun & _ & Ht & Hs & Hh & _ & Hrec & _).
  exists m'. split; [exact Hrun|]. split; [exact Ht|].
  split; [exact Hs|]. split; [exact Hh|exact Hrec].
Defined.

(** C3 as stated fails: a hit with [hits] other than 0 does not always just
    append. After one comparison capture the entry of key 4096 is typed
    [INS] with shape 3 and [hits] 1; a call-site capture at that key then
    turns the type to [RTN] and the shape to 30 and leaves [hits] at 1. *)
Lemma call_retypes_counterexample :
  ∃ m1 m2,
    run_events (Env := sample_env) zero_map [cmp32_event] = Done m1
    ∧ event_key (Env := sample_env) call_event = 4096
    ∧ hdr_hits (headers m1 4096) = 1
    ∧ hdr_type (headers m1 4096) = CMP_TYPE_INS
    ∧ hdr_shape (headers m1 4096) = 3
    ∧ run_event (Env := sample_env) m1 call_event = Done m2
    ∧ hdr_type (headers m2 4096) = CMP_TYPE_RTN
    ∧ hdr_shape (headers m2 4096) = 30
    ∧ hdr_hits (headers m2 4096) = 1.
Proof.
  eexists. eexists. split; [reflexivity|].
  repeat split; reflexivity.
Qed.

(** ** Block coverage: the inline helpers *)

(** A function with no coverage record has no blocks, no covered blocks and
    a zero counter at every block. *)
Lemma no_record_zero this FunctionId BasicBlockId :
  Functions this !! FunctionId = None →
  GetCounter this FunctionId BasicBlockId = 0
  ∧ GetNumberOfBlocks this FunctionId = 0
  ∧ GetNumberOfCoveredBlocks this FunctionId = 0.
Proof.
  intros Hnone.
  unfold GetCounter, GetNumberOfBlocks, GetNumberOfCoveredBlocks.
  unfold CoverageVector in *. by rewrite !Hnone.
Qed.

Lemma NumberOfCoveredBlocks_range Counters :
  0 ≤ NumberOfCoveredBlocks Counters < 2 ^ 32.
Proof.
  unfold NumberOfCoveredBlocks.
  assert (Hgen : ∀ Res, 0 ≤ Res < 2 ^ 32 →
            0 ≤ foldl (λ Res Cnt, if decide (Cnt ≠ 0)
                                  then wrap 32 (Res + 1) else Res)
                  Res Counters < 2 ^ 32).
  { induction Counters as [|Cnt Counters IH]; intros Res HRes; simpl; [done|].
    apply IH. case_decide; [by apply wrap_range|done]. }
  apply Hgen. lia.
Qed.

(** [SmallestNonZeroCounter] starts from [Counters[0]]: when that counter is
    0 the minimum stays 0 and the closing [assert] fails, whatever the other
    counters are. *)
Lemma SmallestNonZeroCounter_first_zero Counters :
  Forall (λ Cnt, 0 ≤ Cnt) Counters →
  SmallestNonZeroCounter (0 :: Counters) = Fatal.
Proof.
  intros Hpos. unfold SmallestNonZeroCounter.
  assert (Hzero : foldl (λ Res Cnt, if decide (Cnt ≠ 0)
                                    then Z.min Res Cnt else Res)
                    0 Counters = 0).
  { induction Hpos as [|Cnt Counters HCnt _ IH]; simpl; [done|].
    case_decide; [|done]. by rewrite Z.min_l. }
  cbn [foldl]. rewrite (decide_False (P := 0 ≠ 0)) by lia.
  rewrite Hzero. by rewrite decide_False by lia.
Qed.

(** * Further properties *)

(** ** What the selector attaches *)

Lemma instrument_call_rule instr iterator :
  cmplog_instrument_call instr iterator
  = if call_selected instr then iterator ++ [Callout_call] else iterator.
Proof.
  unfold cmplog_instrument_call, gum_stalker_iterator_put_callout.
  fold (first_operand instr).
  destruct (call_selected instr) eqn:Hsel; unfold call_selected in Hsel.
  - apply bool_decide_eq_true in Hsel as (Hid & Hn & Ht & Hseg).
    by rewrite !decide_False by tauto.
  - apply bool_decide_eq_false in Hsel.
    repeat case_decide; try done. exfalso. apply Hsel. tauto.
Qed.

Lemma instrument_cmp_sub_rule instr iterator :
  cmplog_instrument_cmp_sub instr iterator
  = if cmp_sub_selected instr
    then cmplog_instrument_cmp_sub_put_callout iterator
           (first_operand instr) (second_operand instr)
    else Done iterator.
Proof.
  unfold cmplog_instrument_cmp_sub.
  fold (first_operand instr) (second_operand instr).
  unfold cmp_sub_selected.
  destruct (is_cmp_sub (insn_id instr)); simpl; [|done].
  destruct (bool_decide _) eqn:Hsel.
  - apply bool_decide_eq_true in Hsel as (Hn & Ht1 & Ht2 & Hsize).
    by rewrite !decide_False by tauto.
  - apply bool_decide_eq_false in Hsel.
    repeat case_decide; try done. exfalso. apply Hsel. tauto.
Qed.

Lemma call_not_cmp_sub instr :
  call_selected instr = true → cmp_sub_selected instr = false.
Proof.
  unfold call_selected, cmp_sub_selected.
  intros [Hid _]%bool_decide_eq_true. by rewrite Hid.
Qed.

Lemma put_operand_done operand :
  op_type operand ≠ X86_OP_INVALID →
  ∃ c, cmplog_instrument_put_operand operand = Done c.
Proof.
  intros Ht. unfold cmplog_instrument_put_operand.
  destruct (op_type operand); [done|eauto..].
Qed.

Lemma instrument_attaches map instr iterator :
  ∃ iterator',
    cmplog_instrument (Some map) instr iterator = Done iterator'
    ∧ (if call_selected instr
       then iterator' = iterator ++ [Callout_call]
       else if cmp_sub_selected instr
       then ∃ c1 c2,
              cmplog_instrument_put_operand (first_operand instr) = Done c1
              ∧ cmplog_instrument_put_operand (second_operand instr) = Done c2
              ∧ iterator'
                = iterator ++ [Callout_cmp_sub {| operand1 := c1;
                                                  operand2 := c2 |}]
       else iterator' = iterator).
Proof.
  unfold cmplog_instrument.
  rewrite instrument_call_rule, instrument_cmp_sub_rule.
  destruct (call_selected instr) eqn:Hcall.
  - rewrite (call_not_cmp_sub instr Hcall). by eexists.
  - destruct (cmp_sub_selected instr) eqn:Hcmp; [|by eexists].
    unfold cmp_sub_selected in Hcmp.
    apply andb_true_iff in Hcmp as [_ Hcmp].
    apply bool_decide_eq_true in Hcmp as (_ & Ht1 & Ht2 & _).
    destruct (put_operand_done _ Ht1) as [c1 Hc1].
    destruct (put_operand_done _ Ht2) as [c2 Hc2].
    unfold cmplog_instrument_cmp_sub_put_callout. rewrite Hc1, Hc2. simpl.
    eexists. split; [done|]. by exists c1, c2.
Qed.

Lemma put_operand_evaluates `{Env : cmplog_env} memory context operand c :
  cmplog_instrument_put_operand operand = Done c →
  ctx_type c = op_type operand
  ∧ ctx_size c = op_size operand
  ∧ cmplog_get_operand_value memory context c
    = cs_operand_value memory context operand.
Proof.
  unfold cmplog_instrument_put_operand, cmplog_get_operand_value,
    cs_operand_value.
  destruct (op_type operand) eqn:Ht; intros [= <-]; simpl; by rewrite ?Ht.
Qed.

(** X1. With a map set up the selector never ends in [FFATAL] and adds at
    most one callout, after those already attached: the call-site callout
    for a call it captures, the comparison callout with the descriptors of
    the first two operands for a comparison it captures, and nothing for any
    other instruction. No instruction gets both. *)
Theorem selector_rule map instr iterator :
  ∃ iterator',
    cmplog_instrument (Some map) instr iterator = Done iterator'
    ∧ (if call_selected instr
       then iterator' = iterator ++ [Callout_call]
       else if cmp_sub_selected instr
       then ∃ c1 c2,
              cmplog_instrument_put_operand (first_operand instr) = Done c1
              ∧ cmplog_instrument_put_operand (second_operand instr) = Done c2
              ∧ iterator'
                = iterator ++ [Callout_cmp_sub {| operand1 := c1;
                                                  operand2 := c2 |}]
       else iterator' = iterator)
    ∧ call_selected instr && cmp_sub_selected instr = false.
Proof.
  destruct (instrument_attaches map instr iterator) as (it' & Hrun & Hcase).
  exists it'. split; [done|]. split; [done|].
  destruct (call_selected instr) eqn:Hcall; [|done].
  by rewrite (call_not_cmp_sub instr Hcall).
Qed.

(** X2. A descriptor the selector stores keeps the type and the width of
    the operand, and evaluating it gives what the operand of the instruction
    itself evaluates to: the register read, the immediate, or the memory
    read through the same base, index, scale and displacement. *)
Theorem put_operand_value `{Env : cmplog_env} memory context operand c :
  cmplog_instrument_put_operand operand = Done c →
  ctx_type c = op_type operand
  ∧ ctx_size c = op_size operand
  ∧ cmplog_get_operand_value memory context c
    = cs_operand_value memory context operand.
Proof. apply put_operand_evaluates. Qed.

Lemma put_operand_value_witness :
  cmplog_instrument_put_operand (first_operand cmp_wide_mem)
  = Done (mem_operand (absolute 0x5000) 16)
  ∧ cmplog_get_operand_value (Env := sample_env) sample_memory
      (sample_context 0x401000 7 0 0) (mem_operand (absolute 0x5000) 16)
    = cs_operand_value (Env := sample_env) sample_memory
        (sample_context 0x401000 7 0 0) (first_operand cmp_wide_mem).
Proof.
  split; [reflexivity|].
  exact (proj2 (proj2 (put_operand_value (Env := sample_env) sample_memory
                         (sample_context 0x401000 7 0 0)
                         (first_operand cmp_wide_mem)
                         (mem_operand (absolute 0x5000) 16) eq_refl))).
Defined.

Lemma run_instrumented_cases `{Env : cmplog_env} map instr m memory context :
  run_instrumented (Some map) instr m memory context
  = if call_selected instr
    then Done (cmplog_call_callout m memory context)
    else if cmp_sub_selected instr
    then r1 ← cs_operand_value memory context (first_operand instr);
         match r1 with
         | None => Done m
         | Some a =>
             r2 ← cs_operand_value memory context (second_operand instr);
             match r2 with
             | None => Done m
             | Some b =>
                 Done (cmplog_handle_cmp_sub m context a b
                         (op_size (first_operand instr)))
             end
         end
    else Done m.
Proof.
  unfold run_instrumented.
  destruct (instrument_attaches map instr []) as (attached & Hrun & Hcase).
  rewrite Hrun. simpl.
  destruct (call_selected instr).
  - subst attached. simpl. unfold run_event, run_callout. simpl.
    by destruct (cmplog_call_callout m memory context).
  - destruct (cmp_sub_selected instr); [|by subst attached].
    destruct Hcase as (c1 & c2 & Hc1 & Hc2 & ->). simpl.
    unfold run_event, run_callout, cmplog_cmp_sub_callout. simpl.
    destruct (put_operand_evaluates memory context _ _ Hc1) as (_ & -> & ->).
    destruct (put_operand_evaluates memory context _ _ Hc2) as (_ & _ & ->).
    destruct (cs_operand_value memory context (first_operand instr))
      as [[a|]|]; simpl; [|done..].
    by destruct (cs_operand_value memory context (second_operand instr))
      as [[b|]|].
Qed.

(** X3. Running an instruction of the instrumented target, with a map set
    up: a captured call is one call-site capture; a captured comparison
    evaluates the instruction's first operand and then its second, gives the
    capture up as soon as one of them fails, and otherwise records the two
    values under the width of the first operand; any other instruction
    leaves the map as it was. *)
Theorem run_instrumented_rule `{Env : cmplog_env} map instr m memory context :
  run_instrumented (Some map) instr m memory context
  = if call_selected instr
    then Done (cmplog_call_callout m memory context)
    else if cmp_sub_selected instr
    then r1 ← cs_operand_value memory context (first_operand instr);
         match r1 with
         | None => Done m
         | Some a =>
             r2 ← cs_operand_value memory context (second_operand instr);
             match r2 with
             | None => Done m
             | Some b =>
                 Done (cmplog_handle_cmp_sub m context a b
                         (op_size (first_operand instr)))
             end
         end
    else Done m.
Proof. apply run_instrumented_cases. Qed.

Lemma cs_operand_value_fatal `{Env : cmplog_env} memory context operand :
  cs_operand_value memory context operand = Fatal →
  op_type operand ≠ X86_OP_INVALID →
  op_type operand = X86_OP_MEM
  ∧ cmplog_is_readable (effective_address context (op_mem operand))
      (op_size operand) = true
  ∧ supported_size (op_size operand) = false.
Proof.
  unfold cs_operand_value. destruct (op_type operand); try done.
  rewrite cmplog_read_mem_spec. cbv zeta. intros Hf _.
  destruct (cmplog_is_readable _ _); [|done].
  by destruct (supported_size _).
Qed.

(** X4. Running an instruction of the instrumented target ends in [FFATAL]
    in one case only: the instruction is a captured comparison one of whose
    first two operands is a memory operand at a readable address with a
    width other than 1, 2, 4 and 8. The [FFATAL]s for an invalid operand
    type are never reached. *)
Theorem run_instrumented_fatal `{Env : cmplog_env} afl_cmp_map instr m memory
    context :
  run_instrumented afl_cmp_map instr m memory context = Fatal →
  cmp_sub_selected instr = true
  ∧ ∃ operand,
      (operand = first_operand instr ∨ operand = second_operand instr)
      ∧ op_type operand = X86_OP_MEM
      ∧ cmplog_is_readable (effective_address context (op_mem operand))
          (op_size operand) = true
      ∧ supported_size (op_size operand) = false.
Proof.
  destruct afl_cmp_map as [map|]; [|done].
  rewrite run_instrumented_cases.
  destruct (call_selected instr); [done|].
  destruct (cmp_sub_selected instr) eqn:Hsel; [|done].
  unfold cmp_sub_selected in Hsel. apply andb_true_iff in Hsel as [_ Hsel].
  apply bool_decide_eq_true in Hsel as (_ & Ht1 & Ht2 & _).
  intros Hf. split; [done|].
  destruct (cs_operand_value memory context (first_operand instr))
    as [[a|]|] eqn:H1; simpl in Hf; [|done|].
  - destruct (cs_operand_value memory context (second_operand instr))
      as [[b|]|] eqn:H2; simpl in Hf; [done..|].
    exists (second_operand instr). split; [by right|].
    exact (cs_operand_value_fatal memory context _ H2 Ht2).
  - exists (first_operand instr). split; [by left|].
    exact (cs_operand_value_fatal memory context _ H1 Ht1).
Qed.

Lemma run_instrumented_fatal_witness :
  run_instrumented (Env := sample_env) (Some zero_map) cmp_wide_mem zero_map
    sample_memory (sample_context 0x401000 7 0 0) = Fatal
  ∧ cmp_sub_selected cmp_wide_mem = true
  ∧ supported_size (op_size (first_operand cmp_wide_mem)) = false.
Proof.
  assert (Hf : run_instrumented (Env := sample_env) (Some zero_map)
                 cmp_wide_mem zero_map sample_memory
                 (sample_context 0x401000 7 0 0) = Fatal) by reflexivity.
  split; [exact Hf|].
  split; [|reflexivity].
  exact (proj1 (run_instrumented_fatal (Env := sample_env) (Some zero_map)
                  cmp_wide_mem zero_map sample_memory
                  (sample_context 0x401000 7 0 0) Hf)).
Defined.

(** ** The values an evaluation gives *)

Lemma le_combine_range bytes :
  Forall (λ b, 0 ≤ b < 256) bytes →
  0 ≤ le_combine bytes < 256 ^ Z.of_nat (length bytes).
Proof.
  induction 1 as [|b bytes Hb _ IH]; simpl le_combine; simpl length.
  - simpl. lia.
  - rewrite Nat2Z.inj_succ, Z.pow_succ_r by lia. lia.
Qed.

Lemma le_combine_read_bytes_range memory address n :
  0 ≤ n → 0 ≤ le_combine (read_bytes memory address n) < 2 ^ (8 * n).
Proof.
  intros Hn.
  pose proof (le_combine_range (read_bytes memory address n)) as Hr.
  rewrite (length_read_bytes memory address n Hn) in Hr.
  replace (2 ^ (8 * n)) with (256 ^ n)
    by (change 256 with (2 ^ 8); by rewrite <- Z.pow_mul_r by lia).
  apply Hr. unfold read_bytes. apply Forall_fmap, Forall_forall.
  intros a _. simpl. apply (wrap_range 8). lia.
Qed.

(** X5. A value an evaluation succeeds with is a [gsize], and the value of
    a memory operand [size] bytes wide is below [2 ^ (8 * size)]: nothing
    beyond the operand's own bytes gets into it. *)
Theorem operand_value_range `{Env : cmplog_env} memory context ctx v :
  cmplog_get_operand_value memory context ctx = Done (Some v) →
  0 ≤ v < 2 ^ 64
  ∧ (ctx_type ctx = X86_OP_MEM → 0 ≤ v < 2 ^ (8 * ctx_size ctx)).
Proof.
  unfold cmplog_get_operand_value. destruct (ctx_type ctx); try done.
  - intros [= <-]. split; [by apply wrap_range|done].
  - intros [= <-]. split; [by apply wrap_range|done].
  - rewrite cmplog_read_mem_spec. cbv zeta.
    destruct (cmplog_is_readable _ _); [|done].
    destruct (supported_size (ctx_size ctx)) eqn:Hs; [|done].
    intros [= <-].
    apply bool_decide_eq_true in Hs.
    assert (Hsize : 0 ≤ ctx_size ctx ≤ 8) by lia.
    pose proof (le_combine_read_bytes_range memory
                  (effective_address context (ctx_mem ctx)) (ctx_size ctx)
                  (proj1 Hsize)) as Hr.
    assert (2 ^ (8 * ctx_size ctx) ≤ 2 ^ 64)
      by (apply Z.pow_le_mono_r; lia).
    split; [lia|done].
Qed.

Lemma operand_value_range_witness :
  cmplog_get_operand_value (Env := sample_env) sample_memory
    (sample_context 0x401000 7 0 0) (mem_operand (absolute 0x5000) 2)
  = Done (Some 256)
  ∧ 0 ≤ 256 < 2 ^ 64.
Proof.
  assert (He : cmplog_get_operand_value (Env := sample_env) sample_memory
                 (sample_context 0x401000 7 0 0)
                 (mem_operand (absolute 0x5000) 2) = Done (Some 256))
    by reflexivity.
  split; [exact He|].
  exact (proj1 (operand_value_range (Env := sample_env) sample_memory
                  (sample_context 0x401000 7 0 0)
                  (mem_operand (absolute 0x5000) 2) 256 He)).
Defined.

(** ** One event, whatever it is *)

Section any_event.
Context `{Env : cmplog_env}.

Lemma run_event_captured_map m e r :
  captured e = Some r →
  run_event m e
  = Done (match r with
          | Rec_ins r0 =>
              cmplog_handle_cmp_sub m (ev_context e) (v0 r0) (v1 r0)
                (event_size e)
          | Rec_rtn _ => cmplog_call_callout m (ev_memory e) (ev_context e)
          end).
Proof.
  intros Hc. destruct r as [r|r].
  - destruct (captured_cmp_sub _ _ Hc) as (ud & Hud & H1 & H2).
    unfold run_event, run_callout, event_size. rewrite Hud.
    unfold cmplog_cmp_sub_callout. rewrite H1. simpl. by rewrite H2.
  - destruct (captured_call _ _ Hc) as (Hcall & _).
    unfold run_event, run_callout. by rewrite Hcall.
Qed.

Lemma run_event_not_captured m e m' :
  captured e = None → run_event m e = Done m' → m' = m.
Proof.
  unfold captured, run_event, run_callout.
  destruct (ev_callout e) as [|ud].
  - destruct (_ && _) eqn:Ht; [done|]. intros _ [= <-].
    by apply call_tests_fail.
  - unfold cmplog_cmp_sub_callout.
    destruct (cmplog_get_operand_value _ _ (operand1 ud)) as [[a|]|];
      simpl; [|by intros _ [= <-]|done].
    destruct (cmplog_get_operand_value _ _ (operand2 ud)) as [[b|]|];
      simpl; [done|by intros _ [= <-]|done].
Qed.

Lemma run_event_log_tag m e r m' :
  captured e = Some r → run_event m e = Done m' →
  match r with
  | Rec_ins _ => ∃ ring, log m' (event_key e) = LogIns ring
  | Rec_rtn _ => ∃ ring, log m' (event_key e) = LogRtn ring
  end.
Proof.
  intros Hc Hrun. rewrite (run_event_captured_map m e r Hc) in Hrun.
  injection Hrun as <-. unfold event_key. destruct r as [r|r].
  - rewrite handle_cmp_sub_log. by eexists.
  - destruct (captured_call _ _ Hc) as (_ & Ht & _).
    rewrite call_callout_log by done. by eexists.
Qed.

Lemma run_event_frame m e m' j :
  run_event m e = Done m' → j ≠ event_key e →
  headers m' j = headers m j ∧ log m' j = log m j.
Proof.
  intros Hrun Hj. destruct (captured e) as [r|] eqn:Hc.
  - rewrite (run_event_captured_map m e r Hc) in Hrun.
    injection Hrun as <-. destruct r as [r|r].
    + by apply handle_cmp_sub_other.
    + destruct (captured_call _ _ Hc) as (_ & Ht & _).
      by apply call_callout_other.
  - by rewrite (run_event_not_captured m e m' Hc Hrun).
Qed.

Lemma run_events_frame evs :
  ∀ m m' j,
    run_events m evs = Done m' →
    Forall (λ e, event_key e ≠ j) evs →
    headers m' j = headers m j ∧ log m' j = log m j.
Proof.
  induction evs as [|e evs IH]; intros m m' j Hrun HF.
  - by injection Hrun as <-.
  - apply Forall_cons in HF as [He HF]. simpl in Hrun.
    destruct (run_event m e) as [m1|] eqn:H1; [|done]. simpl in Hrun.
    destruct (IH m1 m' j Hrun HF) as [-> ->].
    apply (run_event_frame m e m1 j H1). by intros ->.
Qed.

(** What one event that returns does to the map. *)
Lemma run_event_cases m e m' :
  env_ok → run_event m e = Done m' →
  (captured e = None ∧ m' = m)
  ∨ ∃ r, captured e = Some r
      ∧ headers m' (event_key e)
        = {| hdr_hits :=
               wrap HITS_BITS
                 (start_hits (record_type r) (headers m (event_key e)) + 1);
             hdr_shape :=
               if reclassified (record_type r) (headers m (event_key e))
               then wrap SHAPE_BITS (event_shape e)
               else hdr_shape (headers m (event_key e));
             hdr_type := record_type r |}
      ∧ (∀ i, log_view (log m' (event_key e)) (record_type r) i
              = <[start_hits (record_type r) (headers m (event_key e))
                  `mod` ring_capacity (record_type r) := Some r]>
                  (log_view (log m (event_key e)) (record_type r)) i)
      ∧ match r with
        | Rec_ins _ => ∃ ring, log m' (event_key e) = LogIns ring
        | Rec_rtn _ => ∃ ring, log m' (event_key e) = LogRtn ring
        end.
Proof.
  intros Hok Hrun. destruct (captured e) as [r|] eqn:Hc.
  - right. exists r. split; [done|].
    destruct (run_event_captured m e r Hok Hc) as (m'' & Hrun' & Hh & Hl & _).
    rewrite Hrun in Hrun'. injection Hrun' as <-.
    split; [done|]. split; [done|].
    by apply (run_event_log_tag m e r m').
  - left. split; [done|]. by apply (run_event_not_captured m e m').
Qed.

End any_event.

(** X6. A run of events, of whatever kind and at whatever keys, that
    returns leaves the header and the ring of every key none of the events
    is filed under exactly as they were. *)
Theorem events_touch_own_keys `{Env : cmplog_env} m evs m' j :
  run_events m evs = Done m' →
  Forall (λ e, event_key e ≠ j) evs →
  headers m' j = headers m j ∧ log m' j = log m j.
Proof. apply run_events_frame. Qed.

Lemma events_touch_own_keys_witness :
  (∃ m', run_events (Env := sample_env) zero_map
           [cmp32_event; call_event; cmp64_event] = Done m'
     ∧ headers m' 8192 = headers zero_map 8192
     ∧ log m' 8192 = log zero_map 8192)
  ∧ Forall (λ e, event_key (Env := sample_env) e ≠ 8192)
      [cmp32_event; call_event; cmp64_event].
Proof.
  assert (HF : Forall (λ e, event_key (Env := sample_env) e ≠ 8192)
                 [cmp32_event; call_event; cmp64_event])
    by (repeat constructor; vm_compute; discriminate).
  split; [|exact HF].
  eexists. split; [reflexivity|].
  exact (events_touch_own_keys (Env := sample_env) zero_map
           [cmp32_event; call_event; cmp64_event] _ 8192 eq_refl HF).
Defined.

(** X7. An event that returns leaves the map as it found it exactly when it
    captures nothing: there is no capture that leaves no trace, since a
    capture always changes the type or the hit count of its entry, and an
    event that captures nothing writes nothing at all. *)
Theorem unchanged_iff_not_captured `{Env : cmplog_env} m e m' :
  env_ok → run_event m e = Done m' →
  (m' = m ↔ captured e = None).
Proof.
  intros Hok Hrun.
  destruct (run_event_cases m e m' Hok Hrun) as [[Hc ->]|(r & Hc & Hh & _)].
  - done.
  - split; [|by rewrite Hc]. intros ->. exfalso.
    set (h := headers m (event_key e)) in *.
    destruct Hok as [_ _ Hw _].
    assert (Hw0 : 0 ≤ HITS_BITS) by lia.
    pose proof (wrap_range HITS_BITS
                  (start_hits (record_type r) h + 1) Hw0) as Hr.
    assert (H2 : 2 ≤ 2 ^ HITS_BITS).
    { change 2 with (2 ^ 1) at 1. apply Z.pow_le_mono_r; lia. }
    assert (Hhits : hdr_hits h
                    = wrap HITS_BITS (start_hits (record_type r) h + 1))
      by (by rewrite Hh at 1).
    assert (Htype : hdr_type h = record_type r) by (by rewrite Hh at 1).
    unfold start_hits in Hhits, Hr. rewrite decide_True in Hhits, Hr by done.
    assert (Hsmall : wrap 32 (hdr_hits h) = hdr_hits h).
    { apply wrap_small.
      assert (2 ^ HITS_BITS ≤ 2 ^ 32) by (apply Z.pow_le_mono_r; lia).
      lia. }
    rewrite Hsmall in Hhits, Hr. unfold wrap in Hhits, Hr.
    destruct (decide (hdr_hits h + 1 < 2 ^ HITS_BITS)) as [Hlt|Hge].
    + rewrite Z.mod_small in Hhits by lia. lia.
    + assert (Heq : hdr_hits h + 1 = 2 ^ HITS_BITS) by lia.
      rewrite Heq, Z_mod_same_full in Hhits. lia.
Qed.

Lemma unchanged_iff_not_captured_witness :
  env_ok (Env := sample_env)
  ∧ run_event (Env := sample_env) zero_map call_unreadable = Done zero_map
  ∧ captured (Env := sample_env) call_unreadable = None.
Proof.
  assert (Hrun : run_event (Env := sample_env) zero_map call_unreadable
                 = Done zero_map) by reflexivity.
  split; [exact sample_env_ok|]. split; [exact Hrun|].
  exact (proj1 (unchanged_iff_not_captured (Env := sample_env) zero_map
                  call_unreadable zero_map sample_env_ok Hrun) eq_refl).
Defined.

(** ** Invariants of the map *)

Section invariants.
Context `{Env : cmplog_env}.
Hypothesis Hok : env_ok.

Lemma run_event_fields m e m' :
  fields_in_range m → run_event m e = Done m' → fields_in_range m'.
Proof.
  intros Hm Hrun k.
  destruct (run_event_cases m e m' Hok Hrun) as [[_ ->]|(r & Hc & Hh & _)];
    [apply Hm|].
  destruct (decide (k = event_key e)) as [->|Hk].
  - rewrite Hh. simpl. destruct Hok as [_ _ Hw Hs]. split.
    + apply wrap_range. lia.
    + destruct (reclassified _ _); [apply wrap_range; lia|apply Hm].
  - destruct (run_event_frame m e m' k Hrun Hk) as [-> _]. apply Hm.
Qed.

Lemma run_event_types m e m' :
  types_agree m → run_event m e = Done m' → types_agree m'.
Proof.
  intros Hm Hrun k.
  destruct (run_event_cases m e m' Hok Hrun)
    as [[_ ->]|(r & Hc & Hh & _ & Htag)]; [apply Hm|].
  destruct (decide (k = event_key e)) as [->|Hk].
  - rewrite Hh. simpl. destruct r as [r|r]; simpl; [done|].
    split; [|done].
    destruct (reclassified CMP_TYPE_RTN (headers m (event_key e))) eqn:Hr.
    + destruct (captured_call _ _ Hc) as (Hcall & _).
      unfold event_shape. rewrite Hcall. apply wrap_small.
      destruct Hok as [_ _ _ Hs].
      assert (2 ^ 5 ≤ 2 ^ SHAPE_BITS) by (apply Z.pow_le_mono_r; lia). lia.
    + unfold reclassified in Hr. apply bool_decide_eq_false in Hr.
      specialize (Hm (event_key e)).
      destruct (hdr_type (headers m (event_key e)));
        [exfalso; apply Hr; by left..|by destruct Hm].
  - destruct (run_event_frame m e m' k Hrun Hk) as [Hhk Hlk].
    specialize (Hm k). by rewrite Hhk, Hlk.
Qed.

Lemma run_event_slots m e m' :
  fields_in_range m → slots_filled m →
  run_event m e = Done m' → slots_filled m'.
Proof.
  intros Hf Hm Hrun k i.
  destruct (run_event_cases m e m' Hok Hrun)
    as [[_ ->]|(r & Hc & Hh & Hl & _)]; [apply Hm|].
  destruct (decide (k = event_key e)) as [->|Hk].
  - set (t := record_type r) in *. set (h := headers m (event_key e)) in *.
    rewrite Hh. simpl. intros Hi. rewrite Hl.
    pose proof (ring_capacity_pos t Hok) as HH.
    destruct (decide (i = start_hits t h `mod` ring_capacity t)) as [->|Hne].
    { by rewrite fn_lookup_insert. }
    rewrite fn_lookup_insert_ne by done.
    destruct Hok as [_ _ Hw _].
    destruct (Hf (event_key e)) as [Hhits _]. fold h in Hhits.
    assert (H32 : 2 ^ HITS_BITS ≤ 2 ^ 32) by (apply Z.pow_le_mono_r; lia).
    assert (H2 : 2 ≤ 2 ^ HITS_BITS).
    { change 2 with (2 ^ 1) at 1. apply Z.pow_le_mono_r; lia. }
    unfold start_hits in Hi, Hne.
    destruct (decide (hdr_type h = t)) as [Ht|Ht].
    + rewrite (wrap_small 32) in Hi, Hne by lia.
      destruct (decide (hdr_hits h + 1 < 2 ^ HITS_BITS)) as [Hlt|Hge].
      * rewrite wrap_small in Hi by lia.
        destruct (decide (i = hdr_hits h)) as [->|Hih].
        { rewrite Z.mod_small in Hne by lia. done. }
        specialize (Hm (event_key e) i). fold h in Hm. rewrite Ht in Hm.
        apply Hm. lia.
      * assert (Heq : hdr_hits h + 1 = 2 ^ HITS_BITS) by lia.
        unfold wrap in Hi. rewrite Heq, Z_mod_same_full in Hi. lia.
    + rewrite wrap_small in Hi by lia.
      rewrite Z.mod_0_l in Hne by lia. lia.
  - destruct (run_event_frame m e m' k Hrun Hk) as [Hhk Hlk].
    rewrite Hhk, Hlk. apply Hm.
Qed.

Lemma run_events_invariants evs :
  ∀ m m',
    fields_in_range m → types_agree m → slots_filled m →
    run_events m evs = Done m' →
    fields_in_range m' ∧ types_agree m' ∧ slots_filled m'.
Proof.
  induction evs as [|e evs IH]; intros m m' Hf Ht Hs Hrun.
  - by injection Hrun as <-.
  - simpl in Hrun.
    destruct (run_event m e) as [m1|] eqn:H1; [|done]. simpl in Hrun.
    apply (IH m1 m'); [..|done].
    + by apply (run_event_fields m e).
    + by apply (run_event_types m e).
    + by apply (run_event_slots m e).
Qed.

End invariants.

Lemma zero_map_invariants :
  fields_in_range (Env := sample_env) zero_map
  ∧ types_agree zero_map
  ∧ slots_filled (Env := sample_env) zero_map.
Proof.
  split; [|split].
  - intros k. simpl. lia.
  - intros k. done.
  - intros k i. simpl. lia.
Qed.

Lemma run_events_preserves `{Env : cmplog_env} (P : cmp_map → Prop) :
  (∀ m e m', P m → run_event m e = Done m' → P m') →
  ∀ evs m m', P m → run_events m evs = Done m' → P m'.
Proof.
  intros Hstep evs. induction evs as [|e evs IH]; intros m m' Hm Hrun.
  - by injection Hrun as <-.
  - simpl in Hrun.
    destruct (run_event m e) as [m1|] eqn:H1; [|done]. simpl in Hrun.
    apply (IH m1 m'); [|done]. by apply (Hstep m e).
Qed.



(** X9. The header's type tells how the ring was last written: from a map
    in which the ring of every entry typed [INS] was last written as
    comparison records, that of every entry typed [RTN] as call-site records,
    and every entry typed [RTN] has shape 30 - the zero map is one - any run
    of events that returns gives such a map again, however comparisons and
    calls alternate at a key. *)
Theorem type_tells_ring `{Env : cmplog_env} m evs m' :
  env_ok → types_agree m →
  run_events m evs = Done m' → types_agree m'.
Proof.
  intros Hok. apply (run_events_preserves types_agree).
  intros m0 e m1. by apply run_event_types.
Qed.

Lemma type_tells_ring_witness :
  env_ok (Env := sample_env)
  ∧ types_agree zero_map
  ∧ ∃ m', run_events (Env := sample_env) zero_map
            [cmp32_event; call_event; cmp64_event] = Done m'
      ∧ types_agree m'.
Proof.
  split; [exact sample_env_ok|].
  split; [exact (proj1 (proj2 zero_map_invariants))|].
  eexists. split; [reflexivity|].
  exact (type_tells_ring (Env := sample_env) zero_map
           [cmp32_event; call_event; cmp64_event] _ sample_env_ok
           (proj1 (proj2 zero_map_invariants)) eq_refl).
Defined.

(** X10. What a reader of an entry takes is always there: from a map with
    its headers within their fields in which, at every key, the first
    [hits] slots of the ring (all of them once [hits] is past the capacity),
    read through the header's type, hold a record - the zero map is one -
    any run of events that returns gives such a map again. *)
Theorem counted_slots_filled `{Env : cmplog_env} m evs m' :
  env_ok → fields_in_range m → slots_filled m →
  run_events m evs = Done m' → slots_filled m'.
Proof.
  intros Hok Hf Hs Hrun.
  apply (run_events_preserves (λ m, fields_in_range m ∧ slots_filled m))
    with (evs := evs) (m := m); [|done..].
  intros m0 e m1 [Hf0 Hs0] H1. split.
  - by apply (run_event_fields Hok m0 e).
  - by apply (run_event_slots Hok m0 e).
Qed.

Lemma counted_slots_filled_witness :
  env_ok (Env := sample_env)
  ∧ fields_in_range (Env := sample_env) zero_map
  ∧ slots_filled (Env := sample_env) zero_map
  ∧ ∃ m', run_events (Env := sample_env) zero_map
            [cmp32_event; call_event; cmp64_event] = Done m'
      ∧ slots_filled (Env := sample_env) m'.
Proof.
  split; [exact sample_env_ok|].
  split; [exact (proj1 zero_map_invariants)|].
  split; [exact (proj2 (proj2 zero_map_invariants))|].
  eexists. split; [reflexivity|].
  exact (counted_slots_filled (Env := sample_env) zero_map
           [cmp32_event; call_event; cmp64_event] _ sample_env_ok
           (proj1 zero_map_invariants) (proj2 (proj2 zero_map_invariants))
           eq_refl).
Defined.

(** ** Events at different keys *)

Section locality.
Context `{Env : cmplog_env}.

Lemma run_event_not_captured_any m1 m2 e m1' :
  captured e = None → run_event m1 e = Done m1' → run_event m2 e = Done m2.
Proof.
  unfold captured, run_event, run_callout.
  destruct (ev_callout e) as [|ud].
  - destruct (_ && _) eqn:Ht; [done|]. intros _ _. f_equal.
    by apply call_tests_fail.
  - unfold cmplog_cmp_sub_callout.
    destruct (cmplog_get_operand_value _ _ (operand1 ud)) as [[a|]|];
      simpl; [|done..].
    by destruct (cmplog_get_operand_value _ _ (operand2 ud)) as [[b|]|].
Qed.

(** What an event does to its entry depends on that entry alone. *)
Lemma run_event_local m1 m2 e m1' :
  run_event m1 e = Done m1' →
  headers m1 (event_key e) = headers m2 (event_key e) →
  log m1 (event_key e) = log m2 (event_key e) →
  ∃ m2', run_event m2 e = Done m2'
    ∧ headers m2' (event_key e) = headers m1' (event_key e)
    ∧ log m2' (event_key e) = log m1' (event_key e).
Proof.
  intros Hrun Hh Hl. destruct (captured e) as [r|] eqn:Hc.
  - rewrite (run_event_captured_map m1 e r Hc) in Hrun.
    injection Hrun as <-.
    eexists. split; [apply (run_event_captured_map m2 e r Hc)|].
    unfold event_key in *. destruct r as [r|r].
    + by rewrite !handle_cmp_sub_header, !handle_cmp_sub_log, Hh, Hl.
    + destruct (captured_call _ _ Hc) as (_ & Ht & _).
      by rewrite !call_callout_header, !call_callout_log, Hh, Hl by done.
  - rewrite (run_event_not_captured m1 e m1' Hc Hrun).
    exists m2. split; [|done].
    by apply (run_event_not_captured_any m1 m2 e m1').
Qed.

Lemma run_events_two m e1 e2 m' :
  run_events m [e1; e2] = Done m' ↔
  ∃ m1, run_event m e1 = Done m1 ∧ run_event m1 e2 = Done m'.
Proof.
  simpl. destruct (run_event m e1) as [m1|]; simpl.
  - destruct (run_event m1 e2) as [m2|] eqn:H2; simpl.
    + split; [intros [= <-]; by exists m1|].
      intros (m1' & [= <-] & Hrun). by rewrite H2 in Hrun.
    + split; [done|]. intros (m1' & [= <-] & Hrun). by rewrite H2 in Hrun.
  - split; [done|]. by intros (m1 & ? & _).
Qed.

Lemma run_events_swap m e1 e2 m12 :
  event_key e1 ≠ event_key e2 →
  run_events m [e1; e2] = Done m12 →
  ∃ m21, run_events m [e2; e1] = Done m21
    ∧ ∀ j, headers m21 j = headers m12 j ∧ log m21 j = log m12 j.
Proof.
  intros Hk Hrun.
  apply run_events_two in Hrun as (m1 & H1 & H12).
  destruct (run_event_frame m e1 m1 (event_key e2) H1) as [Hh2 Hl2];
    [done|].
  destruct (run_event_local m1 m e2 m12 H12 Hh2 Hl2)
    as (m2 & H2 & Hh22 & Hl22).
  destruct (run_event_frame m e2 m2 (event_key e1) H2) as [Hh1 Hl1];
    [done|].
  destruct (run_event_local m m2 e1 m1 H1 (eq_sym Hh1) (eq_sym Hl1))
    as (m21 & H21 & Hh11 & Hl11).
  exists m21. split; [apply run_events_two; by exists m2|].
  intros j.
  destruct (decide (j = event_key e1)) as [->|Hj1].
  - rewrite Hh11, Hl11.
    by destruct (run_event_frame m1 e2 m12 (event_key e1) H12 Hk)
      as [-> ->].
  - destruct (run_event_frame m2 e1 m21 j H21 Hj1) as [-> ->].
    destruct (decide (j = event_key e2)) as [->|Hj2]; [done|].
    destruct (run_event_frame m e2 m2 j H2 Hj2) as [-> ->].
    destruct (run_event_frame m1 e2 m12 j H12 Hj2) as [-> ->].
    by destruct (run_event_frame m e1 m1 j H1 Hj1) as [-> ->].
Qed.

End locality.

(** X11. Events at different keys do not interfere: if one and then the
    other returns, so do they in the opposite order, and both orders leave
    the same header and the same ring at every key. *)
Theorem events_commute `{Env : cmplog_env} m e1 e2 m12 :
  event_key e1 ≠ event_key e2 →
  run_events m [e1; e2] = Done m12 →
  ∃ m21, run_events m [e2; e1] = Done m21
    ∧ ∀ j, headers m21 j = headers m12 j ∧ log m21 j = log m12 j.
Proof. apply run_events_swap. Qed.

Lemma events_commute_witness :
  event_key (Env := sample_env) cmp32_event
  ≠ event_key (Env := sample_env) cmp32_event_other_key
  ∧ ∃ m12 m21,
      run_events (Env := sample_env) zero_map
        [cmp32_event; cmp32_event_other_key] = Done m12
      ∧ run_events (Env := sample_env) zero_map
          [cmp32_event_other_key; cmp32_event] = Done m21
      ∧ headers m21 4096 = headers m12 4096.
Proof.
  assert (Hk : event_key (Env := sample_env) cmp32_event
               ≠ event_key (Env := sample_env) cmp32_event_other_key)
    by (vm_compute; discriminate).
  split; [exact Hk|].
  destruct (events_commute (Env := sample_env) zero_map cmp32_event
              cmp32_event_other_key _ Hk eq_refl) as (m21 & Hrun & Hsame).
  eexists. exists m21. split; [reflexivity|]. split; [exact Hrun|].
  exact (proj1 (Hsame 4096)).
Defined.

(** ** Block coverage: counting and the smallest counter *)

Lemma covered_loop Counters :
  ∀ Res,
    0 ≤ Res → Res + Z.of_nat (length Counters) < 2 ^ 32 →
    foldl (λ Res Cnt, if decide (Cnt ≠ 0) then wrap 32 (Res + 1) else Res)
      Res Counters
    = Res + Z.of_nat (length (filter (λ Cnt, Cnt ≠ 0) Counters)).
Proof.
  induction Counters as [|Cnt Counters IH]; intros Res HRes Hlen.
  - simpl. lia.
  - simpl length in Hlen. cbn [foldl]. rewrite filter_cons.
    pose proof (length_filter (λ Cnt, Cnt ≠ 0) Counters) as Hf.
    destruct (decide (Cnt ≠ 0)).
    + rewrite (wrap_small 32 (Res + 1)) by lia.
      rewrite IH by lia. simpl length. lia.
    + by rewrite IH by lia.
Qed.

(** X12. For a vector of fewer than [2 ^ 32] counters the counting loop
    gives the number of counters that are not zero, and the covered and the
    uncovered blocks add up to the blocks: the number of uncovered blocks is
    the number of zero counters. *)
Theorem covered_and_uncovered Counters :
  Z.of_nat (length Counters) < 2 ^ 32 →
  NumberOfCoveredBlocks Counters
  = Z.of_nat (length (filter (λ Cnt, Cnt ≠ 0) Counters))
  ∧ NumberOfUncoveredBlocks Counters
    = Z.of_nat (length (filter (λ Cnt, Cnt = 0) Counters))
  ∧ NumberOfCoveredBlocks Counters + NumberOfUncoveredBlocks Counters
    = Z.of_nat (length Counters).
Proof.
  intros Hlen.
  assert (Hcov : NumberOfCoveredBlocks Counters
                 = Z.of_nat (length (filter (λ Cnt, Cnt ≠ 0) Counters))).
  { unfold NumberOfCoveredBlocks. by rewrite covered_loop by lia. }
  assert (Hsplit : Z.of_nat (length (filter (λ Cnt, Cnt ≠ 0) Counters))
                   + Z.of_nat (length (filter (λ Cnt, Cnt = 0) Counters))
                   = Z.of_nat (length Counters)).
  { clear. induction Counters as [|Cnt Counters IH]; [done|].
    rewrite !filter_cons.
    destruct (decide (Cnt ≠ 0)), (decide (Cnt = 0)); simpl length; lia. }
  assert (Hunc : NumberOfUncoveredBlocks Counters
                 = Z.of_nat (length (filter (λ Cnt, Cnt = 0) Counters))).
  { unfold NumberOfUncoveredBlocks. rewrite Hcov, wrap_small; lia. }
  split; [done|]. split; [done|]. rewrite Hcov, Hunc. lia.
Qed.

Lemma covered_and_uncovered_witness :
  Z.of_nat (length [3; 0; 1; 0; 0]) < 2 ^ 32
  ∧ NumberOfCoveredBlocks [3; 0; 1; 0; 0] = 2
  ∧ NumberOfUncoveredBlocks [3; 0; 1; 0; 0] = 3.
Proof.
  assert (Hlen : Z.of_nat (length [3; 0; 1; 0; 0]) < 2 ^ 32)
    by (vm_compute; reflexivity).
  split; [exact Hlen|].
  destruct (covered_and_uncovered [3; 0; 1; 0; 0] Hlen) as (Hc & Hu & _).
  split; [exact Hc|exact Hu].
Defined.

(** X13. The public queries agree: for a function whose record has fewer
    than [2 ^ 32] counters (or that has no record), the covered blocks are
    no more than the blocks, and there is no covered block exactly when
    [GetCounter] is 0 at every block. *)
Theorem covered_blocks_and_counters this FunctionId :
  (∀ Counters, Functions this !! FunctionId = Some Counters →
               Z.of_nat (length Counters) < 2 ^ 32) →
  0 ≤ GetNumberOfCoveredBlocks this FunctionId
    ≤ GetNumberOfBlocks this FunctionId
  ∧ (GetNumberOfCoveredBlocks this FunctionId = 0
     ↔ ∀ BasicBlockId, 0 ≤ BasicBlockId →
                       GetCounter this FunctionId BasicBlockId = 0).
Proof.
  unfold GetNumberOfCoveredBlocks, GetNumberOfBlocks, GetCounter.
  destruct (Functions this !! FunctionId) as [Counters|];
    intros Hlen; [|split; [lia|split; done]].
  specialize (Hlen Counters eq_refl).
  rewrite covered_loop by lia. rewrite wrap_small by lia.
  pose proof (length_filter (λ Cnt, Cnt ≠ 0) Counters) as Hf.
  split; [lia|]. rewrite Z.add_0_l.
  split.
  - intros Hnone b Hb. case_decide as Hin; [|done].
    assert (Hnil : filter (λ Cnt, Cnt ≠ 0) Counters = [])
      by (apply nil_length_inv; lia).
    destruct (decide (nth (Z.to_nat b) Counters 0 = 0)) as [|Hne]; [done|].
    assert (Hel : nth (Z.to_nat b) Counters 0
                  ∈ filter (λ Cnt, Cnt ≠ 0) Counters).
    { apply list_elem_of_filter. split; [done|].
      apply list_elem_of_In, nth_In. lia. }
    rewrite Hnil in Hel. by apply not_elem_of_nil in Hel.
  - intros Hall.
    assert (Hzero : Forall (λ Cnt, Cnt = 0) Counters).
    { apply Forall_lookup. intros i Cnt Hi.
      pose proof (lookup_lt_Some _ _ _ Hi) as Hlt.
      specialize (Hall (Z.of_nat i) ltac:(lia)).
      rewrite decide_True, Nat2Z.id in Hall by lia.
      by rewrite (nth_lookup_Some _ _ 0 _ Hi) in Hall. }
    assert (Hnil : filter (λ Cnt, Cnt ≠ 0) Counters = []).
    { clear -Hzero. induction Hzero as [|Cnt Counters -> _ IH]; [done|].
      by rewrite filter_cons, decide_False by lia. }
    by rewrite Hnil.
Qed.

Lemma covered_blocks_and_counters_witness :
  (∀ Counters, Functions sample_coverage !! 1 = Some Counters →
               Z.of_nat (length Counters) < 2 ^ 32)
  ∧ ∀ BasicBlockId, 0 ≤ BasicBlockId →
                    GetCounter sample_coverage 1 BasicBlockId = 0.
Proof.
  assert (Hlen : ∀ Counters, Functions sample_coverage !! 1 = Some Counters →
                             Z.of_nat (length Counters) < 2 ^ 32).
  { intros Counters H. vm_compute in H. injection H as <-.
    vm_compute. reflexivity. }
  split; [exact Hlen|].
  destruct (covered_blocks_and_counters sample_coverage 1 Hlen) as [_ [H _]].
  apply H. vm_compute. reflexivity.
Defined.

(** The minimum loop of [SmallestNonZeroCounter], from any start value: the
    result is at most the start and at most every counter that is not zero,
    and it is the start or one of those counters. *)
Lemma smallest_loop Counters :
  ∀ Res,
    let R := foldl (λ Res Cnt, if decide (Cnt ≠ 0) then Z.min Res Cnt else Res)
               Res Counters in
    R ≤ Res
    ∧ (R = Res ∨ R ∈ Counters ∧ R ≠ 0)
    ∧ ∀ Cnt, Cnt ∈ Counters → Cnt ≠ 0 → R ≤ Cnt.
Proof.
  induction Counters as [|c Counters IH]; intros Res; cbn [foldl].
  - split; [lia|]. split; [by left|]. intros Cnt H. by apply not_elem_of_nil in H.
  - destruct (decide (c ≠ 0)) as [Hc|Hc].
    + destruct (IH (Z.min Res c)) as (Hle & Hin & Hmin).
      split; [lia|]. split.
      * destruct Hin as [Heq|[Hin Hne]].
        -- rewrite Heq.
           destruct (Z.min_spec Res c) as [[_ ->]|[_ ->]]; [by left|].
           right. split; [apply list_elem_of_here|done].
        -- right. split; [by apply list_elem_of_further|done].
      * intros Cnt [->|HCnt]%elem_of_cons Hne; [lia|by apply Hmin].
    + destruct (IH Res) as (Hle & Hin & Hmin).
      split; [done|]. split.
      * destruct Hin as [Heq|[Hin Hne]]; [by left|].
        right. split; [by apply list_elem_of_further|done].
      * intros Cnt [->|HCnt]%elem_of_cons Hne; [done|by apply Hmin].
Qed.

Lemma smallest_first c0 Counters :
  foldl (λ Res Cnt, if decide (Cnt ≠ 0) then Z.min Res Cnt else Res)
    c0 (c0 :: Counters)
  = foldl (λ Res Cnt, if decide (Cnt ≠ 0) then Z.min Res Cnt else Res)
      c0 Counters.
Proof. cbn [foldl]. case_decide; [|done]. by rewrite Z.min_id. Qed.

(** X14. When the first counter of the vector is not zero,
    [SmallestNonZeroCounter] returns, and what it returns is the least of the
    counters that are not zero: it is not zero, it is one of the counters,
    and no non-zero counter is below it. *)
Theorem smallest_non_zero_counter c0 Counters :
  c0 ≠ 0 →
  ∃ Res,
    SmallestNonZeroCounter (c0 :: Counters) = Done Res
    ∧ Res ≠ 0
    ∧ Res ∈ c0 :: Counters
    ∧ ∀ Cnt, Cnt ∈ c0 :: Counters → Cnt ≠ 0 → Res ≤ Cnt.
Proof.
  intros Hc0. unfold SmallestNonZeroCounter. rewrite smallest_first.
  destruct (smallest_loop Counters c0) as (Hle & Hin & Hmin).
  set (R := foldl _ c0 Counters) in *.
  assert (HR : R ≠ 0) by (destruct Hin as [->|[_ ?]]; done).
  exists R. rewrite decide_True by done.
  split; [done|]. split; [done|]. split.
  - destruct Hin as [->|[Hin _]];
      [apply list_elem_of_here|by apply list_elem_of_further].
  - intros Cnt [->|HCnt]%elem_of_cons Hne; [done|by apply Hmin].
Qed.

Lemma smallest_non_zero_counter_witness :
  3 ≠ 0
  ∧ ∃ Res,
      SmallestNonZeroCounter [3; 0; 1; 7] = Done Res
      ∧ Res ≠ 0
      ∧ Res ∈ [3; 0; 1; 7]
      ∧ ∀ Cnt, Cnt ∈ [3; 0; 1; 7] → Cnt ≠ 0 → Res ≤ Cnt.
Proof.
  assert (H3 : 3 ≠ 0) by lia.
  split; [exact H3|exact (smallest_non_zero_counter 3 [0; 1; 7] H3)].
Defined.

(** X15. For counters that are not negative, the assertions of
    [SmallestNonZeroCounter] fail exactly when the vector is empty or its
    first counter is 0, whatever the other counters are. *)
Theorem smallest_non_zero_counter_fails Counters :
  Forall (λ Cnt, 0 ≤ Cnt) Counters →
  SmallestNonZeroCounter Counters = Fatal
  ↔ Counters = [] ∨ head Counters = Some 0.
Proof.
  intros Hpos. destruct Counters as [|c0 Counters].
  - split; [by left|done].
  - apply Forall_cons in Hpos as [Hc0 Hpos]. split.
    + intros HF. right. simpl. f_equal.
      destruct (decide (c0 = 0)) as [|Hne]; [done|].
      destruct (smallest_loop Counters c0) as (_ & Hin & _).
      unfold SmallestNonZeroCounter in HF. rewrite smallest_first in HF.
      case_decide as HR; [done|].
      destruct Hin as [Heq|[_ ?]]; [|done]. rewrite Heq in HR. done.
    + intros [?|[= ->]]; [done|].
      by apply SmallestNonZeroCounter_first_zero.
Qed.

Lemma smallest_non_zero_counter_fails_witness :
  Forall (λ Cnt, 0 ≤ Cnt) [0; 5; 2]
  ∧ SmallestNonZeroCounter [0; 5; 2] = Fatal.
Proof.
  assert (Hpos : Forall (λ Cnt, 0 ≤ Cnt) [0; 5; 2])
    by (repeat constructor; lia).
  split; [exact Hpos|].
  apply (smallest_non_zero_counter_fails [0; 5; 2] Hpos). by right.
Defined.
